(** * Black-box Newton solver with line search (oomph-lib)

    A shallow embedding of [src/generic/black_box_newton_solver.cc]:
    the driver [black_box_fd_newton_solve] and its helper [line_search],
    both from namespace [BlackBoxFDNewtonSolver].

    Numbers are IEEE-754 binary64 values ([PrimFloat.float]), the type the
    source calls [double]; every arithmetic operation is the correctly
    rounded one, written in the association order of the C++ expression.
    Vectors are lists read and written by index. *)

From Stdlib Require Import Floats ZArith Lia String.
From stdpp Require Import list.

Set Warnings "-inexact-float".

(* ===================================================================== *)
(** ** Data model *)
(* ===================================================================== *)

(** [Vector<double>]. *)
Abbreviation Vector := (list float) (only parsing).

(** [DenseDoubleMatrix]: a list of rows; [jacobian(j,i)] is row [j],
    column [i]. *)
Abbreviation DenseDoubleMatrix := (list (list float)) (only parsing).

(** [v[i]].  The source does not check the index; all loops of the file run
    over [i < v.size()], where the read is defined.  The model answers
    [0] elsewhere. *)
Definition vget (v : Vector) (i : nat) : float := default 0%float (v !! i).

(** [v[i] = a].  Outside the vector the model leaves it unchanged. *)
Definition vset (v : Vector) (i : nat) (a : float) : Vector := <[i := a]> v.

(** [m(j,i)]. *)
Definition mget (m : DenseDoubleMatrix) (j i : nat) : float :=
  vget (default [] (m !! j)) i.

(** [m(j,i) = a]. *)
Definition mset (m : DenseDoubleMatrix) (j i : nat) (a : float)
  : DenseDoubleMatrix :=
  alter (fun row => vset row i a) j m.

(** [for (unsigned i = 0; i < n; i++) body]. *)
Definition for_loop {St : Type} (n : nat) (body : nat -> St -> St) (s : St)
  : St :=
  fold_left (fun s i => body i s) (seq 0 n) s.

(** [std::max(a, b)], that is [(a < b) ? b : a]. *)
Definition std_max (a b : float) : float :=
  if (a <? b)%float then b else a.

(** Modelled from the spec: the comparison functor [AbsCmp<double>] is
    declared in a header outside [src/]; the specification describes the
    quantity it serves as "component-wise absolute value, take the
    maximum".  It orders two numbers by absolute value. *)
Definition AbsCmp (a b : float) : bool := (abs a <? abs b)%float.

(** The scan of [std::max_element]: keep the first element that no later
    element beats under [comp]. *)
Fixpoint max_element_from (comp : float -> float -> bool) (largest : float)
  (rest : list float) : float :=
  match rest with
  | [] => largest
  | y :: rest' =>
      max_element_from comp (if comp largest y then y else largest) rest'
  end.

(** [*std::max_element(v.begin(), v.end(), comp)]; on an empty range the
    iterator returned is [end()] and the dereference has no meaning. *)
Definition max_element (comp : float -> float -> bool) (v : Vector)
  : option float :=
  match v with
  | [] => None
  | a :: rest => Some (max_element_from comp a rest)
  end.

(** What the solver does that is visible from outside, in order: calls of
    the residual function, of the Jacobian function and of the linear
    solver, the text written to [oomph_info] when [Doc_Progress] is set,
    and warnings.

    Modelled from the spec: [OomphLibWarning] is declared in a header
    outside [src/]; the specification calls what line 305 does a non-fatal
    warning, so constructing it is an event after which execution goes
    on. *)
Inductive event : Type :=
| ResidualCall (unknowns : Vector)
| JacobianCall (unknowns : Vector)
| SolveCall (jacobian : DenseDoubleMatrix) (rhs : Vector)
| InfoIteration (iloop : Z) (residuals unknowns : Vector)
| InfoJacobian (jacobian : DenseDoubleMatrix)
| WarningIssued (message : string).

(** The residual function [residual_fct(params, unknowns, residuals)]:
    by its contract it fills the whole of [residuals], whose size is that
    of [unknowns], from [params] and [unknowns] alone. *)
Definition ResidualFctPt : Type := Vector -> Vector -> Vector.

(** The Jacobian function [jacobian_fct(params, unknowns, jacobian)]. *)
Definition JacobianFctPt : Type := Vector -> Vector -> DenseDoubleMatrix.

(** [jacobian.solve(rhs, soln)], a linear solver living outside this file;
    [None] is an error raised by it. *)
Definition LinearSolve : Type := DenseDoubleMatrix -> Vector -> option Vector.

(* ===================================================================== *)
(** ** Line search *)
(* ===================================================================== *)

Definition min_fct_decrease : float := 1.0e-4%float.
Definition convergence_tol_on_x : float := 1.0e-16%float.

(** The arguments [line_search] takes by non-const reference, and the
    events it adds. *)
Record ls_refs : Type := {
  ls_newton_dir : Vector;
  ls_x : Vector;
  ls_half_residual_squared : float;
  ls_log : list event
}.

(** The sum of squares accumulated by [sum += v[i] * v[i]]. *)
Definition sum_of_squares (n : nat) (v : Vector) : float :=
  for_loop n (fun i sum => (sum + vget v i * vget v i)%float) 0%float.

(** Lines 249-261: scale [newton_dir] when its norm exceeds [stpmax]. *)
Definition cap_direction (n : nat) (newton_dir : Vector) (stpmax : float)
  : Vector :=
  let sum := sqrt (sum_of_squares n newton_dir) in
  if (stpmax <? sum)%float
  then for_loop n (fun i d => vset d i (vget d i * (stpmax / sum))%float)
         newton_dir
  else newton_dir.

(** Lines 262-266: [slope += gradient[i] * newton_dir[i]]. *)
Definition directional_slope (n : nat) (gradient newton_dir : Vector)
  : float :=
  for_loop n (fun i slope => (slope + vget gradient i * vget newton_dir i)%float)
    0%float.

(** Lines 274-280: the running maximum [test]. *)
Definition max_relative_step (n : nat) (newton_dir x_old : Vector) : float :=
  for_loop n
    (fun i test =>
       let temp :=
         (abs (vget newton_dir i) / std_max (abs (vget x_old i)) 1)%float in
       if (test <? temp)%float then temp else test)
    0%float.

(** Line 281. *)
Definition lambda_min_of (n : nat) (newton_dir x_old : Vector) : float :=
  (convergence_tol_on_x / max_relative_step n newton_dir x_old)%float.

(** Lines 285-288: the trial point. *)
Definition trial_point (n : nat) (x_old newton_dir : Vector) (lambda : float)
  (x : Vector) : Vector :=
  for_loop n
    (fun i x => vset x i (vget x_old i + lambda * vget newton_dir i)%float) x.

(** Lines 293-298, and 97-104 of the driver: half the sum of the squared
    residuals. *)
Definition half_sum_sq (n : nat) (residuals : Vector) : float :=
  (sum_of_squares n residuals * 0.5)%float.

(** Line 302: [x[i] = x_old[i]]. *)
Definition restore_point (n : nat) (x_old x : Vector) : Vector :=
  for_loop n (fun i x => vset x i (vget x_old i)) x.

(** Lines 317-359: the step multiplier proposed after a rejected trial. *)
Definition propose_lambda
  (slope half_residual_squared half_residual_squared_old
     lambda lambda_aux f_aux : float) : float :=
  if (lambda =? 1)%float
  then (- slope /
          (2 * (half_residual_squared - half_residual_squared_old - slope)))%float
  else
    let r1 :=
      (half_residual_squared - half_residual_squared_old - lambda * slope)%float in
    let r2 := (f_aux - half_residual_squared_old - lambda_aux * slope)%float in
    let a_poly :=
      ((r1 / (lambda * lambda) - r2 / (lambda_aux * lambda_aux))
       / (lambda - lambda_aux))%float in
    let b_poly :=
      ((- lambda_aux * r1 / (lambda * lambda)
        + lambda * r2 / (lambda_aux * lambda_aux))
       / (lambda - lambda_aux))%float in
    let proposed_lambda :=
      if (a_poly =? 0)%float
      then (- slope / (2 * b_poly))%float
      else
        let discriminant := (b_poly * b_poly - 3 * a_poly * slope)%float in
        if (discriminant <? 0)%float then (0.5 * lambda)%float
        else if (b_poly <=? 0)%float
             then ((- b_poly + sqrt discriminant) / (3 * a_poly))%float
             else (- slope / (b_poly + sqrt discriminant))%float in
    if (0.5 * lambda <? proposed_lambda)%float
    then (0.5 * lambda)%float
    else proposed_lambda.

(** Line 363. *)
Definition next_lambda
  (slope half_residual_squared half_residual_squared_old
     lambda lambda_aux f_aux : float) : float :=
  std_max
    (propose_lambda slope half_residual_squared half_residual_squared_old
       lambda lambda_aux f_aux)
    (0.1 * lambda)%float.

(** The locals that live across passes of the [while (true)] loop. *)
Record ls_locals : Type := {
  lambda : float;
  lambda_aux : float;
  f_aux : float
}.

(** The two [return] statements of [line_search]. *)
Inductive ls_exit : Type :=
| ConvergedOnXOnly
| SufficientDecrease.

Inductive ls_pass_result : Type :=
| PassReturn (how : ls_exit) (r : ls_refs)
| PassAgain (l : ls_locals) (r : ls_refs).

(** One pass of the loop body, lines 285-363. *)
Definition ls_pass (x_old : Vector) (half_residual_squared_old : float)
  (residual_fct : ResidualFctPt) (params : Vector)
  (slope lambda_min : float) (l : ls_locals) (r : ls_refs) : ls_pass_result :=
  let n := length x_old in
  let x1 := trial_point n x_old (ls_newton_dir r) (lambda l) (ls_x r) in
  let residuals := residual_fct params x1 in
  let f := half_sum_sq n residuals in
  let log1 := ls_log r ++ [ResidualCall x1] in
  if (lambda l <? lambda_min)%float
  then
    PassReturn ConvergedOnXOnly
      {| ls_newton_dir := ls_newton_dir r;
         ls_x := restore_point n x_old x1;
         ls_half_residual_squared := f;
         ls_log :=
           log1 ++ [WarningIssued "Warning: Line search converged on x only!"] |}
  else
    let r1 :=
      {| ls_newton_dir := ls_newton_dir r;
         ls_x := x1;
         ls_half_residual_squared := f;
         ls_log := log1 |} in
    if (f <=? half_residual_squared_old + min_fct_decrease * lambda l * slope)%float
    then PassReturn SufficientDecrease r1
    else
      PassAgain
        {| lambda :=
             next_lambda slope f half_residual_squared_old
               (lambda l) (lambda_aux l) (f_aux l);
           lambda_aux := lambda l;
           f_aux := f |}
        r1.

Inductive ls_result : Type :=
| LsReturned (how : ls_exit) (lambda_at_exit : float) (r : ls_refs)
| LsRoundoffError (slope : float) (r : ls_refs)
| LsStillRunning (l : ls_locals) (r : ls_refs).

(** The [while (true)] loop, run for at most [fuel] passes. *)
Fixpoint backtrack (fuel : nat) (x_old : Vector)
  (half_residual_squared_old : float)
  (residual_fct : ResidualFctPt) (params : Vector)
  (slope lambda_min : float) (l : ls_locals) (r : ls_refs) : ls_result :=
  match fuel with
  | O => LsStillRunning l r
  | S fuel' =>
      match ls_pass x_old half_residual_squared_old residual_fct params
              slope lambda_min l r with
      | PassReturn how r' => LsReturned how (lambda l) r'
      | PassAgain l' r' =>
          backtrack fuel' x_old half_residual_squared_old residual_fct params
            slope lambda_min l' r'
      end
  end.

(** [line_search], lines 233-365. *)
Definition line_search (fuel : nat) (x_old : Vector)
  (half_residual_squared_old : float) (gradient : Vector)
  (residual_fct : ResidualFctPt) (params : Vector)
  (r : ls_refs) (stpmax : float) : ls_result :=
  let n := length x_old in
  let dir := cap_direction n (ls_newton_dir r) stpmax in
  let r0 :=
    {| ls_newton_dir := dir;
       ls_x := ls_x r;
       ls_half_residual_squared := ls_half_residual_squared r;
       ls_log := ls_log r |} in
  let slope := directional_slope n gradient dir in
  if (0 <=? slope)%float
  then LsRoundoffError slope r0
  else
    backtrack fuel x_old half_residual_squared_old residual_fct params
      slope (lambda_min_of n dir x_old)
      {| lambda := 1; lambda_aux := 0; f_aux := 0 |} r0.

(* ===================================================================== *)
(** ** Newton driver *)
(* ===================================================================== *)

(** The namespace variables that configure the solver. *)
Record Globals : Type := {
  Max_iter : Z;
  Doc_Progress : bool;
  FD_step : float;
  Tol : float;
  Use_step_length_control : bool
}.

(** Their initial values, lines 44-60. *)
Definition default_globals : Globals :=
  {| Max_iter := 20;
     Doc_Progress := false;
     FD_step := 1.0e-8%float;
     Tol := 1.0e-8%float;
     Use_step_length_control := false |}.

(** What a call changes: the caller's [unknowns], the namespace variable
    [N_iter_taken], and the events so far. *)
Record solver_state : Type := {
  unknowns : Vector;
  N_iter_taken : Z;
  log : list event
}.

(** [n++] on an [unsigned]. *)
Definition incr_unsigned (n : Z) : Z := ((n + 1) mod 2 ^ 32)%Z.

(** [double(ndof)]. *)
Definition double_of_unsigned (n : nat) : float :=
  PrimFloat.of_uint63 (Uint63.of_Z (Z.of_nat n)).

Record fd_state : Type := {
  fd_unknowns : Vector;
  fd_jacobian : DenseDoubleMatrix;
  fd_log : list event
}.

(** Lines 142-155: column [i] of the finite-difference Jacobian. *)
Definition fd_column (g : Globals) (residual_fct : ResidualFctPt)
  (params : Vector) (ndof : nat) (residuals : Vector) (i : nat)
  (s : fd_state) : fd_state :=
  let backup := vget (fd_unknowns s) i in
  let advanced :=
    vset (fd_unknowns s) i (vget (fd_unknowns s) i + FD_step g)%float in
  let residuals_pls := residual_fct params advanced in
  {| fd_unknowns := vset advanced i backup;
     fd_jacobian :=
       for_loop ndof
         (fun j jac =>
            mset jac j i
              ((vget residuals_pls j - vget residuals j) / FD_step g)%float)
         (fd_jacobian s);
     fd_log := fd_log s ++ [ResidualCall advanced] |}.

(** Lines 140-156. *)
Definition fd_jacobian_loop (g : Globals) (residual_fct : ResidualFctPt)
  (params : Vector) (ndof : nat) (residuals : Vector) (s : fd_state)
  : fd_state :=
  for_loop ndof (fd_column g residual_fct params ndof residuals) s.

(** [DenseDoubleMatrix jacobian(ndof)]. *)
Definition zero_matrix (ndof : nat) : DenseDoubleMatrix :=
  replicate ndof (replicate ndof 0%float).

(** Lines 175-183: [gradient[i] = sum_j jacobian(j,i) * residuals[j]]. *)
Definition merit_gradient (ndof : nat) (jacobian : DenseDoubleMatrix)
  (residuals : Vector) : Vector :=
  for_loop ndof
    (fun i gradient =>
       vset gradient i
         (for_loop ndof
            (fun j sum => (sum + mget jacobian j i * vget residuals j)%float)
            0%float))
    (replicate ndof 0%float).

(** Line 105. *)
Definition max_step_of (ndof : nat) (unknowns : Vector) : float :=
  (100 * std_max (sqrt (sum_of_squares ndof unknowns))
           (double_of_unsigned ndof))%float.

Inductive error : Type :=
| ConvergenceFailure (max_iter : Z)
| RoundoffError (slope : float)
| LinearSolverError.

Inductive outcome : Type :=
| Returned
| Thrown (e : error)
| LineSearchStillRunning
| Undefined.

Inductive iteration_result : Type :=
| IterReturn (s : solver_state)
| IterNext (s : solver_state)
| IterStop (o : outcome) (s : solver_state).

(** Lines 137-162: the Jacobian of this iteration, with the unknowns and
    the events after building it.  The matrix declared before the loop is
    assigned in full here, whichever way it is built. *)
Definition build_jacobian (g : Globals) (residual_fct : ResidualFctPt)
  (params : Vector) (jacobian_fct : option JacobianFctPt) (ndof : nat)
  (residuals unknowns : Vector) (log : list event) : fd_state :=
  match jacobian_fct with
  | None =>
      fd_jacobian_loop g residual_fct params ndof residuals
        {| fd_unknowns := unknowns;
           fd_jacobian := zero_matrix ndof;
           fd_log := log |}
  | Some jf =>
      {| fd_unknowns := unknowns;
         fd_jacobian := jf params unknowns;
         fd_log := log ++ [JacobianCall unknowns] |}
  end.

(** Lines 199-207 seen from the driver: [x] of the line search is the
    driver's [unknowns]; an error leaves the function, a return goes on to
    the next pass of the loop.  [taken] is the value of [N_iter_taken]. *)
Definition after_line_search (taken : Z) (res : ls_result)
  : iteration_result :=
  match res with
  | LsReturned _ _ r =>
      IterNext
        {| unknowns := ls_x r; N_iter_taken := taken; log := ls_log r |}
  | LsRoundoffError slope r =>
      IterStop (Thrown (RoundoffError slope))
        {| unknowns := ls_x r; N_iter_taken := taken; log := ls_log r |}
  | LsStillRunning _ r =>
      IterStop LineSearchStillRunning
        {| unknowns := ls_x r; N_iter_taken := taken; log := ls_log r |}
  end.

(** One pass of the loop of lines 88-217. *)
Definition newton_iteration (g : Globals) (fuel : nat)
  (residual_fct : ResidualFctPt) (params : Vector)
  (jacobian_fct : option JacobianFctPt) (solve : LinearSolve)
  (ndof : nat) (iloop : Z) (s : solver_state) : iteration_result :=
  let residuals := residual_fct params (unknowns s) in
  let log1 := log s ++ [ResidualCall (unknowns s)] in
  let half_residual_squared :=
    if Use_step_length_control g then half_sum_sq ndof residuals
    else 0%float in
  let max_step :=
    if Use_step_length_control g then max_step_of ndof (unknowns s)
    else 0%float in
  match max_element AbsCmp residuals with
  | None =>
      IterStop Undefined
        {| unknowns := unknowns s;
           N_iter_taken := N_iter_taken s;
           log := log1 |}
  | Some largest =>
      let max_res := abs largest in
      let log2 :=
        if Doc_Progress g
        then log1 ++ [InfoIteration iloop residuals (unknowns s)]
        else log1 in
      if (max_res <? Tol g)%float
      then
        IterReturn
          {| unknowns := unknowns s;
             N_iter_taken := N_iter_taken s;
             log := log2 |}
      else
        let taken := incr_unsigned (N_iter_taken s) in
        let built :=
          build_jacobian g residual_fct params jacobian_fct ndof residuals
            (unknowns s) log2 in
        let jacobian := fd_jacobian built in
        let log3 :=
          if Doc_Progress g
          then fd_log built ++ [InfoJacobian jacobian]
          else fd_log built in
        let gradient :=
          if Use_step_length_control g
          then merit_gradient ndof jacobian residuals
          else replicate ndof 0%float in
        let log4 := log3 ++ [SolveCall jacobian residuals] in
        match solve jacobian residuals with
        | None =>
            IterStop (Thrown LinearSolverError)
              {| unknowns := fd_unknowns built;
                 N_iter_taken := taken;
                 log := log4 |}
        | Some newton_direction =>
            if Use_step_length_control g
            then
              let negated :=
                for_loop ndof (fun i d => vset d i (vget d i * -1)%float)
                  newton_direction in
              let unknowns_old := fd_unknowns built in
              after_line_search taken
                (line_search fuel unknowns_old half_residual_squared gradient
                   residual_fct params
                   {| ls_newton_dir := negated;
                      ls_x := fd_unknowns built;
                      ls_half_residual_squared := half_residual_squared;
                      ls_log := log4 |}
                   max_step)
            else
              IterNext
                {| unknowns :=
                     for_loop ndof
                       (fun i u =>
                          vset u i (vget u i - vget newton_direction i)%float)
                       (fd_unknowns built);
                   N_iter_taken := taken;
                   log := log4 |}
        end
  end.

(** The [for] loop of line 88 with [todo] passes left, then lines 220-226. *)
Fixpoint newton_loop (g : Globals) (fuel : nat)
  (residual_fct : ResidualFctPt) (params : Vector)
  (jacobian_fct : option JacobianFctPt) (solve : LinearSolve)
  (ndof : nat) (todo : nat) (iloop : Z) (s : solver_state)
  : outcome * solver_state :=
  match todo with
  | O => (Thrown (ConvergenceFailure (Max_iter g)), s)
  | S todo' =>
      match
        newton_iteration g fuel residual_fct params jacobian_fct solve
          ndof iloop s
      with
      | IterReturn s' => (Returned, s')
      | IterNext s' =>
          newton_loop g fuel residual_fct params jacobian_fct solve ndof
            todo' (incr_unsigned iloop) s'
      | IterStop o s' => (o, s')
      end
  end.

(** [black_box_fd_newton_solve], lines 67-227.  [fuel] bounds the passes
    of each line search.  Line 85 resets [N_iter_taken], so the value it
    held before the call plays no part. *)
Definition black_box_fd_newton_solve (g : Globals) (fuel : nat)
  (residual_fct : ResidualFctPt) (params : Vector) (unknowns0 : Vector)
  (jacobian_fct : option JacobianFctPt) (solve : LinearSolve)
  : outcome * solver_state :=
  newton_loop g fuel residual_fct params jacobian_fct solve
    (length unknowns0) (Z.to_nat (Max_iter g)) 0
    {| unknowns := unknowns0; N_iter_taken := 0; log := [] |}.

(* ===================================================================== *)
(** ** Notions used to state the properties *)
(* ===================================================================== *)

(** The quantity the driver compares with [Tol], lines 110-111. *)
Definition max_res (residuals : Vector) : option float :=
  abs <$> max_element AbsCmp residuals.

(** The test of line 128 succeeds at [u]. *)
Definition below_tolerance (g : Globals) (residual_fct : ResidualFctPt)
  (params u : Vector) : Prop :=
  exists m, max_res (residual_fct params u) = Some m /\ (m <? Tol g)%float = true.

(** The test of line 128 fails at [u]. *)
Definition test_fails (g : Globals) (residual_fct : ResidualFctPt)
  (params u : Vector) : Prop :=
  exists m, max_res (residual_fct params u) = Some m /\ (m <? Tol g)%float = false.

(** [k] consecutive passes of the driver's loop, each of which fails the
    convergence test and completes its Newton step. *)
Inductive failed_passes (g : Globals) (fuel : nat)
  (residual_fct : ResidualFctPt) (params : Vector)
  (jacobian_fct : option JacobianFctPt) (solve : LinearSolve) (ndof : nat)
  : nat -> Z -> solver_state -> solver_state -> Prop :=
| failed_passes_O iloop s :
    failed_passes g fuel residual_fct params jacobian_fct solve ndof
      0 iloop s s
| failed_passes_S k iloop s s1 s2 :
    test_fails g residual_fct params (unknowns s) ->
    newton_iteration g fuel residual_fct params jacobian_fct solve ndof
      iloop s = IterNext s1 ->
    failed_passes g fuel residual_fct params jacobian_fct solve ndof
      k (incr_unsigned iloop) s1 s2 ->
    failed_passes g fuel residual_fct params jacobian_fct solve ndof
      (S k) iloop s s2.

(** The merit function of the line search at a point. *)
Definition merit_at (residual_fct : ResidualFctPt) (params : Vector)
  (n : nat) (x : Vector) : float :=
  half_sum_sq n (residual_fct params x).

(** The Euclidean norm computed at lines 249-254. *)
Definition euclidean_norm (n : nat) (v : Vector) : float :=
  sqrt (sum_of_squares n v).

(** The specification's wording of the merit value: half the sum of the
    squared residuals, added up in the order of the vector. *)
Definition half_sum_of_squares_spec (residuals : Vector) : float :=
  (fold_left (fun acc r => acc + r * r) residuals 0 * 0.5)%float.

(** The specification's wording of the smallest admissible multiplier:
    the tolerance on [x] over the largest of the ratios
    [|direction_i| / max(|x_old_i|, 1)]. *)
Definition relative_step (d xo : float) : float :=
  (abs d / std_max (abs xo) 1)%float.

Definition largest_of (l : list float) : float :=
  fold_left std_max l 0%float.

Definition lambda_min_spec (newton_dir x_old : Vector) : float :=
  (convergence_tol_on_x
   / largest_of (zip_with relative_step newton_dir x_old))%float.

(** The reference arguments as a line search leaves them. *)
Definition refs_of_result (res : ls_result) : ls_refs :=
  match res with
  | LsReturned _ _ r | LsRoundoffError _ r | LsStillRunning _ r => r
  end.

(** A matrix with [n] rows of [n] entries. *)
Definition square (n : nat) (m : DenseDoubleMatrix) : Prop :=
  length m = n /\ forall j row, m !! j = Some row -> length row = n.

(** The point at which column [i] of the finite-difference Jacobian is
    evaluated: [unknowns] with component [i] increased by [FD_step]. *)
Definition advanced_point (g : Globals) (u : Vector) (i : nat) : Vector :=
  vset u i (vget u i + FD_step g)%float.

(** An event is a call of the residual function. *)
Definition is_residual_call (e : event) : bool :=
  match e with ResidualCall _ => true | _ => false end.

(** An event is a Jacobian evaluation or a linear solve. *)
Definition is_jacobian_or_solve (e : event) : bool :=
  match e with
  | JacobianCall _ | SolveCall _ _ => true
  | _ => false
  end.

(* ===================================================================== *)
(** ** Concrete problems *)
(* ===================================================================== *)

(** The residual [r(x) = x]. *)
Definition residual_identity : ResidualFctPt := fun _ u => u.

(** Its Jacobian for one unknown. *)
Definition jacobian_one : JacobianFctPt := fun _ _ => [[1%float]].

(** A linear solver for systems with one unknown: [d = rhs / J(0,0)]. *)
Definition solve_1x1 : LinearSolve :=
  fun jacobian rhs => Some [(vget rhs 0 / mget jacobian 0 0)%float].

(** The same residual scaled by [2^600], and its Jacobian: a linear
    equation whose merit value exceeds the largest finite number away
    from the root. *)
Definition residual_scaled : ResidualFctPt :=
  fun _ u => [(0x1p+600 * vget u 0)%float].

Definition jacobian_scaled : JacobianFctPt := fun _ _ => [[0x1p+600%float]].

(** The residual [r(x) = 2^-1000 x + 1] and its Jacobian. *)
Definition residual_flat : ResidualFctPt :=
  fun _ u => [(0x1p-1000 * vget u 0 + 1)%float].

Definition jacobian_flat : JacobianFctPt := fun _ _ => [[0x1p-1000%float]].

(** The residual [r(x) = x - 151] for one unknown. *)
Definition residual_shifted : ResidualFctPt :=
  fun _ u => [(vget u 0 - 151)%float].

(** Two unknowns; the second residual is not a number. *)
Definition residual_with_nan : ResidualFctPt :=
  fun _ u => [vget u 0; nan].

(** The default configuration with a budget of one iteration. *)
Definition globals_one_iteration : Globals :=
  {| Max_iter := 1;
     Doc_Progress := false;
     FD_step := 1.0e-8%float;
     Tol := 1.0e-8%float;
     Use_step_length_control := false |}.

(** The default configuration with step length control switched on. *)
Definition globals_step_control : Globals :=
  {| Max_iter := 20;
     Doc_Progress := false;
     FD_step := 1.0e-8%float;
     Tol := 1.0e-8%float;
     Use_step_length_control := true |}.

(** References handed to [line_search] by a caller with an empty log. *)
Definition refs_of (newton_dir x : Vector) (half_residual_squared : float)
  : ls_refs :=
  {| ls_newton_dir := newton_dir;
     ls_x := x;
     ls_half_residual_squared := half_residual_squared;
     ls_log := [] |}.

(** The locals of a line search whose step multiplier is not a number. *)
Definition locals_nan : ls_locals :=
  {| lambda := nan; lambda_aux := nan; f_aux := nan |}.

(* ===================================================================== *)
(** ** Notions used to state further properties *)
(* ===================================================================== *)

(** An event is text written to [oomph_info]. *)
Definition is_info (e : event) : bool :=
  match e with
  | InfoIteration _ _ _ | InfoJacobian _ => true
  | _ => false
  end.

(** An event is a call of the linear solver. *)
Definition is_solve (e : event) : bool :=
  match e with SolveCall _ _ => true | _ => false end.

(** An event is one the line search can cause: a residual evaluation or
    a warning. *)
Definition is_line_search_event (e : event) : bool :=
  match e with
  | ResidualCall _ | WarningIssued _ => true
  | _ => false
  end.

(** An event is neither text for [oomph_info] nor a linear solve. *)
Definition is_quiet (e : event) : bool :=
  negb (is_info e) && negb (is_solve e).

(** An event is a warning; a log holds one. *)
Definition is_warning (e : event) : bool :=
  match e with WarningIssued _ => true | _ => false end.

Definition has_warning (lg : list event) : bool := existsb is_warning lg.

(** The events of a log that are not text for [oomph_info]. *)
Definition without_info (lg : list event) : list event :=
  List.filter (fun e => negb (is_info e)) lg.

(** How many linear solves, and how many residual evaluations, a log
    holds. *)
Definition count_solves (lg : list event) : nat :=
  length (List.filter is_solve lg).

Definition count_residual_calls (lg : list event) : nat :=
  length (List.filter is_residual_call lg).

(** The result of a line search without its log. *)
Definition forget_ls_log (res : ls_result) : ls_result :=
  match res with
  | LsReturned how lam r =>
      LsReturned how lam
        {| ls_newton_dir := ls_newton_dir r;
           ls_x := ls_x r;
           ls_half_residual_squared := ls_half_residual_squared r;
           ls_log := [] |}
  | LsRoundoffError slope r =>
      LsRoundoffError slope
        {| ls_newton_dir := ls_newton_dir r;
           ls_x := ls_x r;
           ls_half_residual_squared := ls_half_residual_squared r;
           ls_log := [] |}
  | LsStillRunning l r =>
      LsStillRunning l
        {| ls_newton_dir := ls_newton_dir r;
           ls_x := ls_x r;
           ls_half_residual_squared := ls_half_residual_squared r;
           ls_log := [] |}
  end.

(** How a pass of the driver's loop ends, and the state it leaves. *)
Inductive pass_end : Type :=
| PassReturns
| PassGoesOn
| PassStops (o : outcome).

Definition iteration_kind (res : iteration_result) : pass_end :=
  match res with
  | IterReturn _ => PassReturns
  | IterNext _ => PassGoesOn
  | IterStop o _ => PassStops o
  end.

Definition iteration_state (res : iteration_result) : solver_state :=
  match res with
  | IterReturn s | IterNext s | IterStop _ s => s
  end.

(** Two configurations that differ at most in [Doc_Progress]. *)
Definition same_but_doc (g1 g2 : Globals) : Prop :=
  Max_iter g1 = Max_iter g2
  /\ FD_step g1 = FD_step g2
  /\ Tol g1 = Tol g2
  /\ Use_step_length_control g1 = Use_step_length_control g2.

(** The default configuration with progress documented. *)
Definition globals_documented : Globals :=
  {| Max_iter := 20;
     Doc_Progress := true;
     FD_step := 1.0e-8%float;
     Tol := 1.0e-8%float;
     Use_step_length_control := false |}.

(** Step length control with the tolerance [2^-100]. *)
Definition globals_tight : Globals :=
  {| Max_iter := 20;
     Doc_Progress := false;
     FD_step := 1.0e-8%float;
     Tol := 0x1p-100%float;
     Use_step_length_control := true |}.

(** Case analysis on the comparison of two binary64 numbers given by
    sign, mantissa and exponent. *)
Ltac sf_order :=
  repeat match goal with
         | s : bool |- _ => destruct s
         end;
  simpl in *; try discriminate; try reflexivity; try congruence;
  repeat match goal with
         | H : context [Pos.compare_cont Eq ?a ?b] |- _ =>
             fold (Pos.compare a b) in H
         | |- context [Pos.compare_cont Eq ?a ?b] => fold (Pos.compare a b)
         end;
  repeat match goal with
         | H : context [Z.compare ?a ?b] |- _ =>
             destruct (Z.compare_spec a b); simpl in H
         | |- context [Z.compare ?a ?b] =>
             destruct (Z.compare_spec a b); simpl
         | H : context [Pos.compare ?a ?b] |- _ =>
             destruct (Pos.compare_spec a b); simpl in H
         | |- context [Pos.compare ?a ?b] =>
             destruct (Pos.compare_spec a b); simpl
         end;
  try discriminate; try reflexivity; try congruence; try lia.

(* ===================================================================== *)
(** * Properties *)
(* ===================================================================== *)

(** ** The model on small problems *)

(** [r(x) = x] from [5] with the exact Jacobian: one Newton step. *)
Example solve_identity_analytic :
  black_box_fd_newton_solve default_globals 3 residual_identity []
    [5%float] (Some jacobian_one) solve_1x1
  = (Returned,
     {| unknowns := [0%float];
        N_iter_taken := 1;
        log :=
          [ResidualCall [5%float]; JacobianCall [5%float];
           SolveCall [[1%float]] [5%float]; ResidualCall [0%float]] |}).
Proof. vm_compute. reflexivity. Qed.

(** The same with the finite-difference Jacobian: the first step leaves a
    residual of about [3e-8], above [Tol], and a second step is taken. *)
Example solve_identity_finite_differences :
  let res :=
    black_box_fd_newton_solve default_globals 3 residual_identity []
      [5%float] None solve_1x1 in
  fst res = Returned
  /\ unknowns (snd res) = [0%float]
  /\ N_iter_taken (snd res) = 2%Z.
Proof. vm_compute. repeat split; reflexivity. Qed.

(** The same with step length control: the full step is accepted. *)
Example solve_identity_step_control :
  black_box_fd_newton_solve globals_step_control 3 residual_identity []
    [5%float] (Some jacobian_one) solve_1x1
  = (Returned,
     {| unknowns := [0%float];
        N_iter_taken := 1;
        log :=
          [ResidualCall [5%float]; JacobianCall [5%float];
           SolveCall [[1%float]] [5%float]; ResidualCall [0%float];
           ResidualCall [0%float]] |}).
Proof. vm_compute. reflexivity. Qed.

(** A line search that backtracks: for [r(x) = x] from [1] along the
    ascent direction [+1] with a gradient of the wrong sign, the multiplier
    shrinks for 26 passes and the search then gives up. *)
Example line_search_backtracks :
  exists lam r',
    line_search 30 [1%float] 0.5 [(-1)%float] residual_identity []
      (refs_of [1%float] [1%float] 0.5) 100
    = LsReturned ConvergedOnXOnly lam r'
    /\ (lam <? 1.0e-16)%float = true
    /\ ls_x r' = [1%float]
    /\ length (ls_log r') = 27.
Proof. do 2 eexists. vm_compute. repeat split; reflexivity. Qed.

(** ** Loops and vectors *)

Lemma for_loop_S {St : Type} (n : nat) (body : nat -> St -> St) (s : St) :
  for_loop (S n) body s = body n (for_loop n body s).
Proof.
  unfold for_loop. rewrite seq_S, fold_left_app. reflexivity.
Qed.

Lemma for_loop_invariant {St : Type} (P : St -> Prop) (n : nat)
  (body : nat -> St -> St) (s : St) :
  P s -> (forall i t, i < n -> P t -> P (body i t)) ->
  P (for_loop n body s).
Proof.
  intros Hs Hbody. induction n as [|n IH]; [exact Hs|].
  rewrite for_loop_S. apply Hbody; [lia|].
  apply IH. intros i t Hi. apply Hbody. lia.
Qed.

Lemma length_vset (v : Vector) (i : nat) (a : float) :
  length (vset v i a) = length v.
Proof. apply length_insert. Qed.

Lemma vget_vset_eq (v : Vector) (i : nat) (a : float) :
  i < length v -> vget (vset v i a) i = a.
Proof.
  intros Hi. unfold vget, vset. rewrite list_lookup_insert_eq by exact Hi.
  reflexivity.
Qed.

Lemma vget_vset_ne (v : Vector) (i j : nat) (a : float) :
  i <> j -> vget (vset v i a) j = vget v j.
Proof.
  intros Hij. unfold vget, vset. rewrite list_lookup_insert_ne by exact Hij.
  reflexivity.
Qed.

Lemma lookup_vget (v : Vector) (i : nat) :
  i < length v -> v !! i = Some (vget v i).
Proof.
  intros Hi. unfold vget. destruct (lookup_lt_is_Some_2 v i Hi) as [a Ha].
  rewrite Ha. reflexivity.
Qed.

Lemma vector_ext (a b : Vector) :
  length a = length b ->
  (forall i, i < length a -> vget a i = vget b i) -> a = b.
Proof.
  intros Hlen Hget. apply list_eq. intros i.
  destruct (decide (i < length a)) as [Hi|Hi].
  - rewrite !lookup_vget by lia. f_equal. apply Hget, Hi.
  - rewrite !lookup_ge_None_2 by lia. reflexivity.
Qed.

(** Writing a value at [i] and then the old value again changes nothing:
    lines 142, 143 and 155. *)
Lemma vset_backup (v : Vector) (i : nat) (a : float) :
  vset (vset v i a) i (vget v i) = v.
Proof.
  unfold vset. rewrite list_insert_insert_eq.
  destruct (decide (i < length v)) as [Hi|Hi].
  - apply list_insert_id, lookup_vget, Hi.
  - apply list_insert_ge. lia.
Qed.

(** A loop that assigns [d[k] = h k d[k]] for every [k < n]. *)
Lemma length_pointwise_loop (n : nat) (h : nat -> float -> float)
  (v : Vector) :
  length (for_loop n (fun k d => vset d k (h k (vget d k))) v) = length v.
Proof.
  apply (for_loop_invariant (fun d => length d = length v)); [reflexivity|].
  intros i t _ Ht. rewrite length_vset. exact Ht.
Qed.

Lemma vget_pointwise_loop_above (n : nat) (h : nat -> float -> float)
  (v : Vector) (i : nat) :
  n <= i ->
  vget (for_loop n (fun k d => vset d k (h k (vget d k))) v) i = vget v i.
Proof.
  induction n as [|n IH]; intros Hi; [reflexivity|].
  rewrite for_loop_S. cbv beta. rewrite vget_vset_ne by lia. apply IH. lia.
Qed.

Lemma vget_pointwise_loop (n : nat) (h : nat -> float -> float)
  (v : Vector) (i : nat) :
  i < n -> i < length v ->
  vget (for_loop n (fun k d => vset d k (h k (vget d k))) v) i
  = h i (vget v i).
Proof.
  induction n as [|n IH]; intros Hi Hlen; [lia|].
  rewrite for_loop_S. cbv beta.
  destruct (decide (i = n)) as [->|Hne].
  - rewrite vget_vset_eq by (rewrite length_pointwise_loop; exact Hlen).
    rewrite vget_pointwise_loop_above by lia. reflexivity.
  - rewrite vget_vset_ne by congruence. apply IH; [lia|exact Hlen].
Qed.

(** ** Comparisons of binary64 numbers *)

(** A number below zero is not at or above zero. *)
Lemma ltb_zero_not_leb (a : float) :
  (a <? 0)%float = true -> (0 <=? a)%float = false.
Proof.
  rewrite ltb_spec, leb_spec.
  replace (Prim2SF 0) with (S754_zero false) by reflexivity.
  unfold SFltb, SFleb.
  destruct (Prim2SF a) as [s|s| |s m e]; simpl; try destruct s;
    intros H; try discriminate H; reflexivity.
Qed.

(** ** The pieces of the line search *)

Lemma length_cap_direction (n : nat) (newton_dir : Vector) (stpmax : float) :
  length (cap_direction n newton_dir stpmax) = length newton_dir.
Proof.
  unfold cap_direction.
  destruct (stpmax <? sqrt (sum_of_squares n newton_dir))%float;
    [|reflexivity].
  apply (length_pointwise_loop n
           (fun _ a => (a * (stpmax / sqrt (sum_of_squares n newton_dir)))%float)).
Qed.

Lemma length_trial_point (n : nat) (x_old newton_dir : Vector)
  (lam : float) (x : Vector) :
  length (trial_point n x_old newton_dir lam x) = length x.
Proof.
  apply (length_pointwise_loop n
           (fun k _ => (vget x_old k + lam * vget newton_dir k)%float)).
Qed.

Lemma vget_trial_point (n : nat) (x_old newton_dir : Vector)
  (lam : float) (x : Vector) (i : nat) :
  i < n -> i < length x ->
  vget (trial_point n x_old newton_dir lam x) i
  = (vget x_old i + lam * vget newton_dir i)%float.
Proof.
  apply (vget_pointwise_loop n
           (fun k _ => (vget x_old k + lam * vget newton_dir k)%float)).
Qed.

Lemma length_restore_point (n : nat) (x_old x : Vector) :
  length (restore_point n x_old x) = length x.
Proof. apply (length_pointwise_loop n (fun k _ => vget x_old k)). Qed.

Lemma vget_restore_point (n : nat) (x_old x : Vector) (i : nat) :
  i < n -> i < length x -> vget (restore_point n x_old x) i = vget x_old i.
Proof. apply (vget_pointwise_loop n (fun k _ => vget x_old k)). Qed.

(** When [x] has the size of [x_old], as in the driver, line 302 makes it
    equal to [x_old]. *)
Lemma restore_point_all (x_old x : Vector) :
  length x = length x_old -> restore_point (length x_old) x_old x = x_old.
Proof.
  intros Hlen. apply vector_ext.
  - rewrite length_restore_point. exact Hlen.
  - intros i Hi. rewrite length_restore_point in Hi.
    apply vget_restore_point; lia.
Qed.

(** ** The backtracking loop *)

Section Backtracking.

Variable x_old : Vector.
Variable f_old : float.
Variable residual_fct : ResidualFctPt.
Variable params : Vector.
Variables slope lmin : float.

(** What one pass of the loop does, by the branch it takes. *)
Lemma ls_pass_cases (l : ls_locals) (r : ls_refs) :
  let n := length x_old in
  let x1 := trial_point n x_old (ls_newton_dir r) (lambda l) (ls_x r) in
  let f := merit_at residual_fct params n x1 in
  match ls_pass x_old f_old residual_fct params slope lmin l r with
  | PassReturn ConvergedOnXOnly r' =>
      (lambda l <? lmin)%float = true /\
      r' = {| ls_newton_dir := ls_newton_dir r;
              ls_x := restore_point n x_old x1;
              ls_half_residual_squared := f;
              ls_log :=
                (ls_log r ++ [ResidualCall x1])
                ++ [WarningIssued "Warning: Line search converged on x only!"] |}
  | PassReturn SufficientDecrease r' =>
      (lambda l <? lmin)%float = false /\
      (f <=? f_old + min_fct_decrease * lambda l * slope)%float = true /\
      r' = {| ls_newton_dir := ls_newton_dir r;
              ls_x := x1;
              ls_half_residual_squared := f;
              ls_log := ls_log r ++ [ResidualCall x1] |}
  | PassAgain l' r' =>
      (lambda l <? lmin)%float = false /\
      (f <=? f_old + min_fct_decrease * lambda l * slope)%float = false /\
      l' = {| lambda :=
                next_lambda slope f f_old (lambda l) (lambda_aux l) (f_aux l);
              lambda_aux := lambda l;
              f_aux := f |} /\
      r' = {| ls_newton_dir := ls_newton_dir r;
              ls_x := x1;
              ls_half_residual_squared := f;
              ls_log := ls_log r ++ [ResidualCall x1] |}
  end.
Proof.
  intros n x1 f. unfold ls_pass. fold n. fold x1.
  change (half_sum_sq n (residual_fct params x1)) with f.
  destruct (lambda l <? lmin)%float; [split; reflexivity|].
  destruct (f <=? f_old + min_fct_decrease * lambda l * slope)%float;
    repeat split; reflexivity.
Qed.

Lemma backtrack_S (fuel : nat) (l : ls_locals) (r : ls_refs) :
  backtrack (S fuel) x_old f_old residual_fct params slope lmin l r
  = match ls_pass x_old f_old residual_fct params slope lmin l r with
    | PassReturn how r' => LsReturned how (lambda l) r'
    | PassAgain l' r' =>
        backtrack fuel x_old f_old residual_fct params slope lmin l' r'
    end.
Proof. reflexivity. Qed.

(** A loop that returns does so from one of its passes; up to that pass
    the direction and the size of [x] are as on entry to the loop, and
    only residual evaluations have happened. *)
Lemma backtrack_returned (fuel : nat) (l : ls_locals) (r : ls_refs)
  (how : ls_exit) (lam : float) (r' : ls_refs) :
  backtrack fuel x_old f_old residual_fct params slope lmin l r
  = LsReturned how lam r' ->
  exists l0 r0 calls,
    ls_pass x_old f_old residual_fct params slope lmin l0 r0
    = PassReturn how r'
    /\ lambda l0 = lam
    /\ ls_newton_dir r0 = ls_newton_dir r
    /\ length (ls_x r0) = length (ls_x r)
    /\ ls_log r0 = ls_log r ++ calls
    /\ forallb is_residual_call calls = true.
Proof.
  revert l r. induction fuel as [|fuel IH]; intros l r; [discriminate|].
  rewrite backtrack_S.
  pose proof (ls_pass_cases l r) as Hpass. cbv zeta in Hpass.
  destruct (ls_pass x_old f_old residual_fct params slope lmin l r)
    as [how0 r0|l1 r1] eqn:E.
  - intros [= -> <- ->]. exists l, r, []. rewrite app_nil_r.
    repeat split; assumption || reflexivity.
  - intros Hrun. destruct Hpass as (_ & _ & _ & ->).
    destruct (IH _ _ Hrun) as (l0 & r0 & calls & Hp & Hl & Hd & Hx & Hlog & Hc).
    simpl in Hd, Hx, Hlog. rewrite length_trial_point in Hx.
    exists l0, r0, (ResidualCall
                      (trial_point (length x_old) x_old (ls_newton_dir r)
                         (lambda l) (ls_x r)) :: calls).
    repeat split; try assumption.
    rewrite Hlog, <- app_assoc. reflexivity.
Qed.

(** The loop never raises the error. *)
Lemma backtrack_no_error (fuel : nat) (l : ls_locals) (r : ls_refs)
  (s : float) (r' : ls_refs) :
  backtrack fuel x_old f_old residual_fct params slope lmin l r
  <> LsRoundoffError s r'.
Proof.
  revert l r. induction fuel as [|fuel IH]; intros l r; [discriminate|].
  rewrite backtrack_S.
  destruct (ls_pass x_old f_old residual_fct params slope lmin l r);
    [discriminate|apply IH].
Qed.

(** A pass entered with a step multiplier below the minimum returns. *)
Lemma backtrack_stagnates (fuel : nat) (l : ls_locals) (r : ls_refs) :
  (lambda l <? lmin)%float = true ->
  exists r',
    backtrack (S fuel) x_old f_old residual_fct params slope lmin l r
    = LsReturned ConvergedOnXOnly (lambda l) r'.
Proof.
  intros Hlt. rewrite backtrack_S. unfold ls_pass. rewrite Hlt.
  eexists. reflexivity.
Qed.

(** The loop never writes the direction. *)
Lemma backtrack_direction (fuel : nat) (l : ls_locals) (r : ls_refs) :
  ls_newton_dir
    (refs_of_result
       (backtrack fuel x_old f_old residual_fct params slope lmin l r))
  = ls_newton_dir r.
Proof.
  revert l r. induction fuel as [|fuel IH]; intros l r; [reflexivity|].
  rewrite backtrack_S.
  pose proof (ls_pass_cases l r) as Hpass. cbv zeta in Hpass.
  destruct (ls_pass x_old f_old residual_fct params slope lmin l r)
    as [how r1|l1 r1].
  - simpl. destruct how.
    + destruct Hpass as (_ & ->). reflexivity.
    + destruct Hpass as (_ & _ & ->). reflexivity.
  - destruct Hpass as (_ & _ & _ & ->). rewrite IH. reflexivity.
Qed.

End Backtracking.

(** ** The whole line search *)

(** A line search either raises its error before the loop, or runs the
    loop on the capped direction. *)
Lemma line_search_unfold (fuel : nat) (x_old : Vector) (f_old : float)
  (gradient : Vector) (residual_fct : ResidualFctPt) (params : Vector)
  (r : ls_refs) (stpmax : float) :
  let n := length x_old in
  let dir := cap_direction n (ls_newton_dir r) stpmax in
  let slope := directional_slope n gradient dir in
  let r0 := {| ls_newton_dir := dir;
               ls_x := ls_x r;
               ls_half_residual_squared := ls_half_residual_squared r;
               ls_log := ls_log r |} in
  line_search fuel x_old f_old gradient residual_fct params r stpmax
  = if (0 <=? slope)%float
    then LsRoundoffError slope r0
    else backtrack fuel x_old f_old residual_fct params slope
           (lambda_min_of n dir x_old)
           {| lambda := 1; lambda_aux := 0; f_aux := 0 |} r0.
Proof. reflexivity. Qed.

(** A line search that returns: the slope was below zero or not a number,
    and the pass that returned tried [x1 = x_old + lam * direction]. *)
Lemma line_search_returned (fuel : nat) (x_old : Vector) (f_old : float)
  (gradient : Vector) (residual_fct : ResidualFctPt) (params : Vector)
  (r : ls_refs) (stpmax : float) (how : ls_exit) (lam : float)
  (r' : ls_refs) :
  line_search fuel x_old f_old gradient residual_fct params r stpmax
  = LsReturned how lam r' ->
  let n := length x_old in
  let dir := cap_direction n (ls_newton_dir r) stpmax in
  let slope := directional_slope n gradient dir in
  let lmin := lambda_min_of n dir x_old in
  exists x0 calls,
    length x0 = length (ls_x r)
    /\ forallb is_residual_call calls = true
    /\ (0 <=? slope)%float = false
    /\ let x1 := trial_point n x_old dir lam x0 in
       let f := merit_at residual_fct params n x1 in
       match how with
       | ConvergedOnXOnly =>
           (lam <? lmin)%float = true
           /\ r' = {| ls_newton_dir := dir;
                      ls_x := restore_point n x_old x1;
                      ls_half_residual_squared := f;
                      ls_log :=
                        ((ls_log r ++ calls) ++ [ResidualCall x1])
                        ++ [WarningIssued
                              "Warning: Line search converged on x only!"] |}
       | SufficientDecrease =>
           (lam <? lmin)%float = false
           /\ (f <=? f_old + min_fct_decrease * lam * slope)%float = true
           /\ r' = {| ls_newton_dir := dir;
                      ls_x := x1;
                      ls_half_residual_squared := f;
                      ls_log := (ls_log r ++ calls) ++ [ResidualCall x1] |}
       end.
Proof.
  rewrite line_search_unfold. cbv zeta.
  destruct (0 <=? _)%float eqn:Hslope; [discriminate|].
  intros Hrun.
  destruct (backtrack_returned _ _ _ _ _ _ _ _ _ _ _ _ Hrun)
    as (l0 & r0 & calls & Hpass & <- & Hdir & Hlen & Hlog & Hcalls).
  simpl in Hdir, Hlen, Hlog.
  pose proof (ls_pass_cases x_old f_old residual_fct params
                (directional_slope (length x_old) gradient
                   (cap_direction (length x_old) (ls_newton_dir r) stpmax))
                (lambda_min_of (length x_old)
                   (cap_direction (length x_old) (ls_newton_dir r) stpmax)
                   x_old) l0 r0) as Hcases.
  cbv zeta in Hcases. rewrite Hpass, Hdir, Hlog in Hcases.
  exists (ls_x r0), calls.
  split; [exact Hlen|]. split; [exact Hcalls|]. split; [reflexivity|].
  destruct how; exact Hcases.
Qed.

(** A line search that returns leaves [x] with the size it had. *)
Lemma line_search_returned_length (fuel : nat) (x_old : Vector)
  (f_old : float) (gradient : Vector) (residual_fct : ResidualFctPt)
  (params : Vector) (r : ls_refs) (stpmax : float)
  (how : ls_exit) (lam : float) (r' : ls_refs) :
  line_search fuel x_old f_old gradient residual_fct params r stpmax
  = LsReturned how lam r' ->
  length (ls_x r') = length (ls_x r).
Proof.
  intros Hrun.
  destruct (line_search_returned _ _ _ _ _ _ _ _ _ _ _ Hrun)
    as (x0 & calls & Hlen & _ & _ & Hexit).
  cbv zeta in Hexit. destruct how.
  - destruct Hexit as (_ & ->). simpl.
    rewrite length_restore_point, length_trial_point. exact Hlen.
  - destruct Hexit as (_ & _ & ->). simpl.
    rewrite length_trial_point. exact Hlen.
Qed.

(** However a line search ends, the direction it leaves, the one its loop
    has used, is the direction after the cap. *)
Lemma line_search_direction (fuel : nat) (x_old : Vector) (f_old : float)
  (gradient : Vector) (residual_fct : ResidualFctPt) (params : Vector)
  (r : ls_refs) (stpmax : float) :
  ls_newton_dir
    (refs_of_result
       (line_search fuel x_old f_old gradient residual_fct params r stpmax))
  = cap_direction (length x_old) (ls_newton_dir r) stpmax.
Proof.
  rewrite line_search_unfold. cbv zeta.
  destruct (0 <=? _)%float; [reflexivity|].
  rewrite backtrack_direction. reflexivity.
Qed.

(** ** Claims about the line search *)

(** C10.  When [line_search] raises its round-off error, no residual has
    been evaluated and no component of [x] has been written: [x], the
    merit value and the event log are exactly as on entry.  The one
    reference argument that may have changed is the direction, which holds
    the direction after the norm cap; the slope reported is at or above
    zero. *)
Theorem C10_error_before_any_write (fuel : nat) (x_old : Vector)
  (f_old : float) (gradient : Vector) (residual_fct : ResidualFctPt)
  (params : Vector) (r : ls_refs) (stpmax slope : float) (r' : ls_refs) :
  line_search fuel x_old f_old gradient residual_fct params r stpmax
  = LsRoundoffError slope r' ->
  ls_x r' = ls_x r
  /\ ls_half_residual_squared r' = ls_half_residual_squared r
  /\ ls_log r' = ls_log r
  /\ ls_newton_dir r' = cap_direction (length x_old) (ls_newton_dir r) stpmax
  /\ (0 <=? slope)%float = true.
Proof.
  rewrite line_search_unfold. cbv zeta.
  destruct (0 <=? directional_slope (length x_old) gradient
                    (cap_direction (length x_old) (ls_newton_dir r) stpmax))%float
    eqn:Hslope.
  - intros [= <- <-]. simpl. repeat split; try reflexivity. exact Hslope.
  - intros H. exfalso. exact (backtrack_no_error _ _ _ _ _ _ _ _ _ _ _ H).
Qed.

Lemma C10_error_before_any_write_witness :
  line_search 3 [0%float] 0 [1%float] residual_identity []
    (refs_of [1%float] [7%float] 2) 100
  = LsRoundoffError 1 (refs_of [1%float] [7%float] 2)
  /\ ls_x (refs_of [1%float] [7%float] 2) = [7%float]
  /\ ls_log (refs_of [1%float] [7%float] 2) = [].
Proof.
  pose proof (C10_error_before_any_write 3 [0%float] 0 [1%float]
                residual_identity [] (refs_of [1%float] [7%float] 2) 100 1
                (refs_of [1%float] [7%float] 2) eq_refl) as H.
  destruct H as (Hx & _ & Hlog & _).
  split; [reflexivity|]. split; [exact Hx|exact Hlog].
Defined.

(** C4.  [line_search] raises its round-off error exactly when the slope,
    the product of the gradient with the direction after the norm cap, is
    at or above zero; with a slope below zero the error is not raised. *)
Theorem C4_roundoff_iff_slope_nonnegative (fuel : nat) (x_old : Vector)
  (f_old : float) (gradient : Vector) (residual_fct : ResidualFctPt)
  (params : Vector) (r : ls_refs) (stpmax : float) :
  let slope :=
    directional_slope (length x_old) gradient
      (cap_direction (length x_old) (ls_newton_dir r) stpmax) in
  ((exists r',
       line_search fuel x_old f_old gradient residual_fct params r stpmax
       = LsRoundoffError slope r')
   <-> (0 <=? slope)%float = true)
  /\ ((slope <? 0)%float = true ->
      forall s r',
        line_search fuel x_old f_old gradient residual_fct params r stpmax
        <> LsRoundoffError s r').
Proof.
  intros slope. rewrite line_search_unfold. cbv zeta. fold slope.
  destruct (0 <=? slope)%float eqn:Hslope.
  - split.
    + split; [reflexivity|]. intros _. eexists. reflexivity.
    + intros Hneg. apply ltb_zero_not_leb in Hneg. congruence.
  - split.
    + split; [|discriminate].
      intros [r' H]. exfalso.
      exact (backtrack_no_error _ _ _ _ _ _ _ _ _ _ _ H).
    + intros _ s r'. apply backtrack_no_error.
Qed.

Lemma fold_left_indices (F : float -> float -> float) (g : nat -> float)
  (l : list nat) (a : float) :
  fold_left (fun acc i => F acc (g i)) l a = fold_left F (g <$> l) a.
Proof.
  revert a. induction l as [|i l IH]; intros a; [reflexivity|].
  simpl. apply IH.
Qed.

(** The merit value of lines 293-298 is the one the specification
    describes, for a vector of the size the loop runs over. *)
Lemma half_sum_sq_spec (v : Vector) :
  half_sum_sq (length v) v = half_sum_of_squares_spec v.
Proof.
  unfold half_sum_sq, half_sum_of_squares_spec, sum_of_squares, for_loop.
  f_equal.
  rewrite (fold_left_indices (fun acc r => (acc + r * r)%float) (vget v)).
  f_equal. apply list_eq. intros i. rewrite list_lookup_fmap.
  destruct (decide (i < length v)) as [Hi|Hi].
  - rewrite lookup_seq_lt by exact Hi. simpl. symmetry.
    apply lookup_vget. exact Hi.
  - rewrite lookup_seq_ge by lia. symmetry. apply lookup_ge_None_2. lia.
Qed.

(** C5.  When [line_search] returns from the acceptance branch with step
    multiplier [lam], the merit value it returns satisfies
    [merit <= merit_old + 1e-4 * lam * slope], it is half the sum of the
    squared residuals at the returned [x] (for a residual function that
    fills a vector of the size of [x_old], as its contract says), and the
    returned [x] is [x_old + lam * direction] component by component. *)
Theorem C5_sufficient_decrease_at_return (fuel : nat) (x_old : Vector)
  (f_old : float) (gradient : Vector) (residual_fct : ResidualFctPt)
  (params : Vector) (r : ls_refs) (stpmax lam : float) (r' : ls_refs) :
  line_search fuel x_old f_old gradient residual_fct params r stpmax
  = LsReturned SufficientDecrease lam r' ->
  length (residual_fct params (ls_x r')) = length x_old ->
  let n := length x_old in
  let dir := cap_direction n (ls_newton_dir r) stpmax in
  let slope := directional_slope n gradient dir in
  (ls_half_residual_squared r' <=? f_old + 1.0e-4 * lam * slope)%float = true
  /\ ls_half_residual_squared r'
     = half_sum_of_squares_spec (residual_fct params (ls_x r'))
  /\ forall i, i < n -> i < length (ls_x r) ->
       vget (ls_x r') i = (vget x_old i + lam * vget dir i)%float.
Proof.
  intros Hrun Hsize.
  destruct (line_search_returned _ _ _ _ _ _ _ _ _ _ _ Hrun)
    as (x0 & calls & Hlen & _ & _ & Hexit).
  cbv zeta in *. destruct Hexit as (_ & Harmijo & ->).
  cbn [ls_half_residual_squared ls_x] in *.
  split; [exact Harmijo|]. split.
  - unfold merit_at. rewrite <- half_sum_sq_spec. f_equal. symmetry.
    exact Hsize.
  - intros i Hi Hx. apply vget_trial_point; [exact Hi|].
    rewrite Hlen. exact Hx.
Qed.

Lemma C5_sufficient_decrease_at_return_witness :
  (0x1.451fffffffffdp+10
   <=? 11400.5
       + 1.0e-4 * 1
         * directional_slope 1 [(-151)%float]
             (cap_direction 1 [151%float] 100))%float = true
  /\ 0x1.451fffffffffdp+10%float
     = half_sum_of_squares_spec
         (residual_shifted [] [0x1.9000000000001p+6%float])
  /\ forall i, i < 1 -> i < 1 ->
       vget [0x1.9000000000001p+6%float] i
       = (vget [0%float] i
          + 1 * vget (cap_direction 1 [151%float] 100) i)%float.
Proof.
  exact (C5_sufficient_decrease_at_return 3 [0%float] 11400.5
           [(-151)%float] residual_shifted []
           (refs_of [151%float] [0%float] 11400.5) 100 1
           {| ls_newton_dir := [0x1.9000000000001p+6%float];
              ls_x := [0x1.9000000000001p+6%float];
              ls_half_residual_squared := 0x1.451fffffffffdp+10;
              ls_log := [ResidualCall [0x1.9000000000001p+6%float]] |}
           eq_refl eq_refl).
Defined.

(** C3, as the code has it.  On the exit taken when the step multiplier
    has fallen below its minimum, every component of [x] is again that of
    [x_old] (the whole of [x], when it has the size of [x_old]), the call
    returns normally, and the one event besides residual evaluations is a
    single warning.  On the acceptance exit no warning is issued and the
    merit value returned is the merit function at the returned [x], which
    is [x_old + lam * direction]. *)
Theorem C3_exits_of_line_search (fuel : nat) (x_old : Vector)
  (f_old : float) (gradient : Vector) (residual_fct : ResidualFctPt)
  (params : Vector) (r : ls_refs) (stpmax : float)
  (how : ls_exit) (lam : float) (r' : ls_refs) :
  line_search fuel x_old f_old gradient residual_fct params r stpmax
  = LsReturned how lam r' ->
  match how with
  | ConvergedOnXOnly =>
      (forall i, i < length x_old -> i < length (ls_x r) ->
         vget (ls_x r') i = vget x_old i)
      /\ (length (ls_x r) = length x_old -> ls_x r' = x_old)
      /\ exists calls,
          ls_log r'
          = ls_log r ++ calls
            ++ [WarningIssued "Warning: Line search converged on x only!"]
          /\ forallb is_residual_call calls = true
  | SufficientDecrease =>
      ls_half_residual_squared r'
      = merit_at residual_fct params (length x_old) (ls_x r')
      /\ (forall i, i < length x_old -> i < length (ls_x r) ->
            vget (ls_x r') i
            = (vget x_old i + lam * vget (ls_newton_dir r') i)%float)
      /\ exists calls,
          ls_log r' = ls_log r ++ calls
          /\ forallb is_residual_call calls = true
  end.
Proof.
  intros Hrun.
  destruct (line_search_returned _ _ _ _ _ _ _ _ _ _ _ Hrun)
    as (x0 & calls & Hlen & Hcalls & _ & Hexit).
  cbv zeta in Hexit. destruct how.
  - destruct Hexit as (_ & ->). simpl. split; [|split].
    + intros i Hi Hx. apply vget_restore_point; [exact Hi|].
      rewrite length_trial_point, Hlen. exact Hx.
    + intros Hsize. apply restore_point_all.
      rewrite length_trial_point, Hlen. exact Hsize.
    + eexists (calls ++ [ResidualCall _]). split.
      * rewrite <- !app_assoc. reflexivity.
      * rewrite forallb_app, Hcalls. reflexivity.
  - destruct Hexit as (_ & _ & ->). simpl. split; [reflexivity|]. split.
    + intros i Hi Hx. apply vget_trial_point; [exact Hi|].
      rewrite Hlen. exact Hx.
    + eexists (calls ++ [ResidualCall _]). split.
      * rewrite <- !app_assoc. reflexivity.
      * rewrite forallb_app, Hcalls. reflexivity.
Qed.

Lemma C3_exits_of_line_search_witness :
  line_search 3 [5%float] 12.5 [5%float] residual_identity []
    (refs_of [(-5)%float] [5%float] 12.5) 100
  = LsReturned SufficientDecrease 1
      {| ls_newton_dir := [(-5)%float];
         ls_x := [0%float];
         ls_half_residual_squared := 0;
         ls_log := [ResidualCall [0%float]] |}
  /\ 0%float = merit_at residual_identity [] 1 [0%float].
Proof.
  split; [reflexivity|].
  pose proof (C3_exits_of_line_search 3 [5%float] 12.5 [5%float]
                residual_identity [] (refs_of [(-5)%float] [5%float] 12.5)
                100 SufficientDecrease 1
                {| ls_newton_dir := [(-5)%float];
                   ls_x := [0%float];
                   ls_half_residual_squared := 0;
                   ls_log := [ResidualCall [0%float]] |} eq_refl) as H.
  destruct H as (H & _). exact H.
Defined.

(** C3 fails as stated.  The residual is [r(x) = x], the point is
    [x_old = 2^-60] with its merit value [2^-121], its gradient [2^-60]
    and the Newton direction [-2^-60].  The first trial point is the root
    [0], but the step multiplier [1] is below the minimum, about [115]: the
    call returns with [x] restored to [2^-60] and the merit value [0] of
    the trial point, while the merit function at the returned [x] is
    [2^-121]. *)
Lemma C3_counterexample :
  line_search 5 [0x1p-60%float] 0x1p-121 [0x1p-60%float] residual_identity []
    (refs_of [(-0x1p-60)%float] [0x1p-60%float] 0x1p-121) 100
  = LsReturned ConvergedOnXOnly 1
      {| ls_newton_dir := [(-0x1p-60)%float];
         ls_x := [0x1p-60%float];
         ls_half_residual_squared := 0;
         ls_log :=
           [ResidualCall [0%float];
            WarningIssued "Warning: Line search converged on x only!"] |}
  /\ merit_at residual_identity [] 1 [0x1p-60%float] = 0x1p-121%float
  /\ (0 =? 0x1p-121)%float = false.
Proof. repeat split; vm_compute; reflexivity. Qed.

(** ** The smallest admissible step multiplier *)

Lemma ratios_by_index (newton_dir x_old : Vector) :
  length newton_dir = length x_old ->
  (fun i => relative_step (vget newton_dir i) (vget x_old i))
    <$> seq 0 (length x_old)
  = zip_with relative_step newton_dir x_old.
Proof.
  intros Hlen. apply list_eq. intros i.
  rewrite list_lookup_fmap, lookup_zip_with.
  destruct (decide (i < length x_old)) as [Hi|Hi].
  - rewrite lookup_seq_lt by exact Hi.
    rewrite (lookup_vget newton_dir i) by lia.
    rewrite (lookup_vget x_old i) by lia. reflexivity.
  - rewrite lookup_seq_ge by lia.
    rewrite (lookup_ge_None_2 newton_dir) by lia. reflexivity.
Qed.

(** The value of line 281 is the one the specification describes. *)
Lemma lambda_min_of_spec (newton_dir x_old : Vector) :
  length newton_dir = length x_old ->
  lambda_min_of (length x_old) newton_dir x_old
  = lambda_min_spec newton_dir x_old.
Proof.
  intros Hlen.
  unfold lambda_min_of, lambda_min_spec, max_relative_step, largest_of,
    for_loop.
  rewrite <- (ratios_by_index newton_dir x_old Hlen). f_equal.
  exact (fold_left_indices std_max
           (fun i => relative_step (vget newton_dir i) (vget x_old i))
           (seq 0 (length x_old)) 0%float).
Qed.

(** C9.  The minimum step multiplier of [line_search] is the tolerance on
    [x], [1e-16], divided by the largest of the ratios
    [|direction_i| / max(|x_old_i|, 1)]; a pass of the loop entered with a
    multiplier strictly below it leaves by the stagnation exit, and that
    exit is taken only then. *)
Theorem C9_lambda_min_and_stagnation (fuel : nat) (x_old : Vector)
  (f_old : float) (gradient : Vector) (residual_fct : ResidualFctPt)
  (params : Vector) (r : ls_refs) (stpmax : float) :
  length (ls_newton_dir r) = length x_old ->
  let n := length x_old in
  let dir := cap_direction n (ls_newton_dir r) stpmax in
  let slope := directional_slope n gradient dir in
  let lmin := lambda_min_spec dir x_old in
  (0 <=? slope)%float = false ->
  lmin = (1.0e-16 / largest_of (zip_with relative_step dir x_old))%float
  /\ line_search fuel x_old f_old gradient residual_fct params r stpmax
     = backtrack fuel x_old f_old residual_fct params slope lmin
         {| lambda := 1; lambda_aux := 0; f_aux := 0 |}
         {| ls_newton_dir := dir;
            ls_x := ls_x r;
            ls_half_residual_squared := ls_half_residual_squared r;
            ls_log := ls_log r |}
  /\ (forall k l s,
        (lambda l <? lmin)%float = true ->
        exists s',
          backtrack (S k) x_old f_old residual_fct params slope lmin l s
          = LsReturned ConvergedOnXOnly (lambda l) s')
  /\ (forall how lam r',
        line_search fuel x_old f_old gradient residual_fct params r stpmax
        = LsReturned how lam r' ->
        (lam <? lmin)%float
        = match how with
          | ConvergedOnXOnly => true
          | SufficientDecrease => false
          end).
Proof.
  intros Hlen n dir slope lmin Hslope.
  assert (Hmin : lambda_min_of n dir x_old = lmin).
  { apply lambda_min_of_spec. unfold dir.
    rewrite length_cap_direction. exact Hlen. }
  split; [reflexivity|]. split; [|split].
  - rewrite line_search_unfold. cbv zeta. fold n. fold dir. fold slope.
    rewrite Hslope, Hmin. reflexivity.
  - intros k l s Hlt. apply backtrack_stagnates. exact Hlt.
  - intros how lam r' Hrun.
    destruct (line_search_returned _ _ _ _ _ _ _ _ _ _ _ Hrun)
      as (x0 & calls & _ & _ & _ & Hexit).
    cbv zeta in Hexit. fold n in Hexit. fold dir in Hexit.
    rewrite Hmin in Hexit.
    destruct how; [destruct Hexit as (H & _)|destruct Hexit as (H & _)];
      exact H.
Qed.

Lemma C9_lambda_min_and_stagnation_witness :
  line_search 5 [0x1p-60%float] 0x1p-121 [0x1p-60%float] residual_identity []
    (refs_of [(-0x1p-60)%float] [0x1p-60%float] 0x1p-121) 100
  = LsReturned ConvergedOnXOnly 1
      {| ls_newton_dir := [(-0x1p-60)%float];
         ls_x := [0x1p-60%float];
         ls_half_residual_squared := 0;
         ls_log :=
           [ResidualCall [0%float];
            WarningIssued "Warning: Line search converged on x only!"] |}
  /\ (1 <? lambda_min_spec (cap_direction 1 [(-0x1p-60)%float] 100)
             [0x1p-60%float])%float
     = true.
Proof.
  split; [reflexivity|].
  pose proof (C9_lambda_min_and_stagnation 5 [0x1p-60%float] 0x1p-121
                [0x1p-60%float] residual_identity []
                (refs_of [(-0x1p-60)%float] [0x1p-60%float] 0x1p-121) 100
                eq_refl eq_refl) as H.
  cbv zeta in H. destruct H as (_ & _ & _ & H).
  exact (H ConvergedOnXOnly 1%float _ eq_refl).
Defined.

(** ** Matrices *)

Lemma square_zero_matrix (n : nat) : square n (zero_matrix n).
Proof.
  split; [apply length_replicate|].
  intros j row Hrow. apply lookup_replicate_1 in Hrow as [-> _].
  apply length_replicate.
Qed.

Lemma square_mset (n : nat) (m : DenseDoubleMatrix) (j i : nat) (a : float) :
  square n m -> square n (mset m j i a).
Proof.
  intros [Hlen Hrows]. split; [unfold mset; rewrite length_alter; exact Hlen|].
  intros j' row. unfold mset. rewrite list_lookup_alter.
  destruct (decide (j = j')) as [->|Hne]; [|apply Hrows].
  destruct (m !! j') as [row0|] eqn:E; simpl; [|discriminate].
  intros [= <-]. rewrite length_vset. exact (Hrows _ _ E).
Qed.

Lemma mget_mset_eq (n : nat) (m : DenseDoubleMatrix) (j i : nat) (a : float) :
  square n m -> j < n -> i < n -> mget (mset m j i a) j i = a.
Proof.
  intros [Hlen Hrows] Hj Hi. unfold mget, mset.
  rewrite list_lookup_alter_eq.
  destruct (lookup_lt_is_Some_2 m j) as [row Hrow]; [lia|].
  rewrite Hrow. simpl. apply vget_vset_eq.
  rewrite (Hrows _ _ Hrow). exact Hi.
Qed.

Lemma mget_mset_ne (m : DenseDoubleMatrix) (j i j' i' : nat) (a : float) :
  j <> j' \/ i <> i' -> mget (mset m j i a) j' i' = mget m j' i'.
Proof.
  intros Hne. unfold mget, mset. rewrite list_lookup_alter.
  destruct (decide (j = j')) as [->|Hj]; [|reflexivity].
  destruct Hne as [Hne|Hne]; [congruence|].
  destruct (m !! j') as [row|]; simpl; [|reflexivity].
  apply vget_vset_ne. exact Hne.
Qed.

(** The loop of lines 149-152 fills column [i] and nothing else. *)
Lemma square_column (n k i : nat) (h : nat -> float)
  (m : DenseDoubleMatrix) :
  square n m -> square n (for_loop k (fun j jac => mset jac j i (h j)) m).
Proof.
  intros Hm. apply for_loop_invariant; [exact Hm|].
  intros j t _ Ht. apply square_mset. exact Ht.
Qed.

Lemma mget_column_other (k i : nat) (h : nat -> float)
  (m : DenseDoubleMatrix) (j' i' : nat) :
  i <> i' ->
  mget (for_loop k (fun j jac => mset jac j i (h j)) m) j' i' = mget m j' i'.
Proof.
  intros Hne. induction k as [|k IH]; [reflexivity|].
  rewrite for_loop_S. cbv beta. rewrite mget_mset_ne by (right; exact Hne).
  exact IH.
Qed.

Lemma mget_column (n k i : nat) (h : nat -> float)
  (m : DenseDoubleMatrix) (j : nat) :
  square n m -> i < n -> k <= n -> j < k ->
  mget (for_loop k (fun j jac => mset jac j i (h j)) m) j i = h j.
Proof.
  intros Hm Hi. induction k as [|k IH]; intros Hk Hj; [lia|].
  rewrite for_loop_S. cbv beta.
  destruct (decide (j = k)) as [->|Hne].
  - apply (mget_mset_eq n); [apply square_column; exact Hm|lia|exact Hi].
  - rewrite mget_mset_ne by (left; congruence). apply IH; lia.
Qed.

(** ** The finite-difference Jacobian *)

(** One column: the unknowns come back as they were. *)
Lemma fd_column_restores (g : Globals) (residual_fct : ResidualFctPt)
  (params : Vector) (ndof : nat) (residuals : Vector) (i : nat)
  (s : fd_state) :
  fd_column g residual_fct params ndof residuals i s
  = {| fd_unknowns := fd_unknowns s;
       fd_jacobian :=
         for_loop ndof
           (fun j jac =>
              mset jac j i
                ((vget (residual_fct params
                          (advanced_point g (fd_unknowns s) i)) j
                  - vget residuals j) / FD_step g)%float)
           (fd_jacobian s);
       fd_log :=
         fd_log s ++ [ResidualCall (advanced_point g (fd_unknowns s) i)] |}.
Proof.
  unfold fd_column, advanced_point. rewrite vset_backup. reflexivity.
Qed.

(** The state after the first [k] columns. *)
Lemma fd_jacobian_loop_columns (g : Globals) (residual_fct : ResidualFctPt)
  (params : Vector) (ndof : nat) (residuals : Vector) (s : fd_state)
  (k : nat) :
  square ndof (fd_jacobian s) -> k <= ndof ->
  let s' := for_loop k (fd_column g residual_fct params ndof residuals) s in
  fd_unknowns s' = fd_unknowns s
  /\ square ndof (fd_jacobian s')
  /\ (forall i j, i < k -> j < ndof ->
        mget (fd_jacobian s') j i
        = ((vget (residual_fct params (advanced_point g (fd_unknowns s) i)) j
            - vget residuals j) / FD_step g)%float)
  /\ fd_log s'
     = fd_log s
       ++ ((fun i => ResidualCall (advanced_point g (fd_unknowns s) i))
             <$> seq 0 k).
Proof.
  intros Hsq. induction k as [|k IH]; intros Hk; cbv zeta.
  - simpl. repeat split; try (apply Hsq). { intros; lia. }
    rewrite app_nil_r. reflexivity.
  - destruct IH as (Hu & Hs & Hent & Hlog); [lia|].
    rewrite for_loop_S, fd_column_restores, seq_S, fmap_app. simpl.
    rewrite Hu.
    split; [reflexivity|]. split; [apply square_column; exact Hs|]. split.
    + intros i j Hi Hj. destruct (decide (i = k)) as [->|Hne].
      * apply (mget_column ndof); [exact Hs|lia|lia|exact Hj].
      * rewrite mget_column_other by congruence. apply Hent; [lia|exact Hj].
    + rewrite Hlog, <- app_assoc. reflexivity.
Qed.

(** Whichever way the Jacobian is built, the unknowns are afterwards what
    they were before. *)
Lemma build_jacobian_unknowns (g : Globals) (residual_fct : ResidualFctPt)
  (params : Vector) (jacobian_fct : option JacobianFctPt) (ndof : nat)
  (residuals u : Vector) (lg : list event) :
  fd_unknowns
    (build_jacobian g residual_fct params jacobian_fct ndof residuals u lg)
  = u.
Proof.
  destruct jacobian_fct as [jf|]; [reflexivity|]. simpl.
  unfold fd_jacobian_loop.
  pose proof (fd_jacobian_loop_columns g residual_fct params ndof residuals
                {| fd_unknowns := u;
                   fd_jacobian := zero_matrix ndof;
                   fd_log := lg |}
                ndof (square_zero_matrix ndof) (le_n ndof)) as H.
  cbv zeta in H. destruct H as (H & _). exact H.
Qed.

(** C7.  With no Jacobian function supplied, the Jacobian of a Newton step
    is built by finite differences: entry [(j, i)] is component [j] of
    [(residual(params, unknowns with component i increased by FD_step)
      - residual(params, unknowns)) / FD_step],
    the residual function is evaluated once per column for that, and after
    the assembly the unknowns are exactly the vector they were before. *)
Theorem C7_finite_difference_jacobian (g : Globals)
  (residual_fct : ResidualFctPt) (params u : Vector) (lg : list event) :
  let ndof := length u in
  let residuals := residual_fct params u in
  let built :=
    build_jacobian g residual_fct params None ndof residuals u lg in
  fd_unknowns built = u
  /\ (forall i j, i < ndof -> j < ndof ->
        mget (fd_jacobian built) j i
        = ((vget (residual_fct params
                    (vset u i (vget u i + FD_step g)%float)) j
            - vget (residual_fct params u) j) / FD_step g)%float)
  /\ fd_log built
     = lg ++ ((fun i => ResidualCall (vset u i (vget u i + FD_step g)%float))
                <$> seq 0 ndof).
Proof.
  intros ndof residuals built.
  pose proof (fd_jacobian_loop_columns g residual_fct params ndof residuals
                {| fd_unknowns := u;
                   fd_jacobian := zero_matrix ndof;
                   fd_log := lg |}
                ndof (square_zero_matrix ndof) (le_n ndof)) as H.
  cbv zeta in H. destruct H as (Hu & _ & Hent & Hlog).
  split; [exact Hu|]. split; [exact Hent|exact Hlog].
Qed.

Lemma C7_finite_difference_jacobian_witness :
  mget (fd_jacobian
          (build_jacobian default_globals residual_identity [] None 1
             [5%float] [5%float] []))
    0 0
  = ((vget (vset [5%float] 0 (5 + 1.0e-8)%float) 0 - 5) / 1.0e-8)%float.
Proof.
  pose proof (C7_finite_difference_jacobian default_globals residual_identity
                [] [5%float] []) as H.
  cbv zeta in H. destruct H as (_ & H & _).
  exact (H 0 0 (Nat.lt_0_succ 0) (Nat.lt_0_succ 0)).
Defined.

(** ** The step cap *)

(** The direction after lines 249-261. *)
Lemma cap_direction_cases (n : nat) (newton_dir : Vector) (stpmax : float) :
  if (stpmax <? euclidean_norm n newton_dir)%float
  then
    length (cap_direction n newton_dir stpmax) = length newton_dir
    /\ forall i, i < n -> i < length newton_dir ->
         vget (cap_direction n newton_dir stpmax) i
         = (vget newton_dir i * (stpmax / euclidean_norm n newton_dir))%float
  else cap_direction n newton_dir stpmax = newton_dir.
Proof.
  pose proof (length_cap_direction n newton_dir stpmax) as Hlen.
  unfold cap_direction, euclidean_norm in *.
  destruct (stpmax <? sqrt (sum_of_squares n newton_dir))%float;
    [|reflexivity].
  split; [exact Hlen|]. intros i Hi Hd.
  apply (vget_pointwise_loop n
           (fun _ a => (a * (stpmax / sqrt (sum_of_squares n newton_dir)))%float));
    assumption.
Qed.

(** A pass of the driver's loop that fails the convergence test. *)
Lemma newton_iteration_unfold (g : Globals) (fuel : nat)
  (residual_fct : ResidualFctPt) (params : Vector)
  (jacobian_fct : option JacobianFctPt) (solve : LinearSolve)
  (ndof : nat) (iloop : Z) (s : solver_state) (largest : float) :
  max_element AbsCmp (residual_fct params (unknowns s)) = Some largest ->
  (abs largest <? Tol g)%float = false ->
  let u := unknowns s in
  let residuals := residual_fct params u in
  let taken := incr_unsigned (N_iter_taken s) in
  let log2 :=
    (log s ++ [ResidualCall u])
    ++ (if Doc_Progress g then [InfoIteration iloop residuals u] else []) in
  let built :=
    build_jacobian g residual_fct params jacobian_fct ndof residuals u log2 in
  let log4 :=
    (fd_log built
     ++ (if Doc_Progress g then [InfoJacobian (fd_jacobian built)] else []))
    ++ [SolveCall (fd_jacobian built) residuals] in
  newton_iteration g fuel residual_fct params jacobian_fct solve ndof iloop s
  = match solve (fd_jacobian built) residuals with
    | None =>
        IterStop (Thrown LinearSolverError)
          {| unknowns := u; N_iter_taken := taken; log := log4 |}
    | Some newton_direction =>
        if Use_step_length_control g
        then
          after_line_search taken
            (line_search fuel u (merit_at residual_fct params ndof u)
               (merit_gradient ndof (fd_jacobian built) residuals)
               residual_fct params
               {| ls_newton_dir :=
                    for_loop ndof (fun i d => vset d i (vget d i * -1)%float)
                      newton_direction;
                  ls_x := u;
                  ls_half_residual_squared :=
                    merit_at residual_fct params ndof u;
                  ls_log := log4 |}
               (100 * std_max (euclidean_norm ndof u)
                        (double_of_unsigned ndof))%float)
        else
          IterNext
            {| unknowns :=
                 for_loop ndof
                   (fun i v =>
                      vset v i (vget v i - vget newton_direction i)%float)
                   u;
               N_iter_taken := taken;
               log := log4 |}
    end.
Proof.
  intros Hmax Htol u residuals taken log2 built log4.
  unfold newton_iteration. rewrite Hmax, Htol.
  assert (Hlog2 :
    (if Doc_Progress g
     then (log s ++ [ResidualCall (unknowns s)])
          ++ [InfoIteration iloop (residual_fct params (unknowns s))
                (unknowns s)]
     else log s ++ [ResidualCall (unknowns s)]) = log2).
  { unfold log2, residuals, u. destruct (Doc_Progress g);
      [reflexivity|rewrite app_nil_r; reflexivity]. }
  rewrite Hlog2. fold u. fold residuals. fold built. fold taken.
  assert (Hlog4 :
    (if Doc_Progress g
     then fd_log built ++ [InfoJacobian (fd_jacobian built)]
     else fd_log built) ++ [SolveCall (fd_jacobian built) residuals] = log4).
  { unfold log4. destruct (Doc_Progress g);
      [reflexivity|rewrite app_nil_r; reflexivity]. }
  rewrite Hlog4.
  assert (Hu : fd_unknowns built = u) by apply build_jacobian_unknowns.
  rewrite Hu.
  destruct (solve (fd_jacobian built) residuals) as [d|]; [|reflexivity].
  destruct (Use_step_length_control g); reflexivity.
Qed.

(** C8, as the code has it.  With step length control on, a pass of the
    driver that fails the convergence test and gets the direction [d]
    from the linear solver makes exactly one call of the line search: at
    the unknowns, with the gradient of the merit function, with the
    direction [-d], and with the step cap
    [100 * max(Euclidean norm of unknowns, N)].  The direction that call
    uses and leaves behind is [-d] compared with that cap: when its
    Euclidean norm exceeds the cap, every component is multiplied by
    [cap / norm], and otherwise it is left as it is.  The same holds of
    every call of the line search with its own cap. *)
Theorem C8_step_cap (g : Globals) (fuel : nat)
  (residual_fct : ResidualFctPt) (params : Vector)
  (jacobian_fct : option JacobianFctPt) (solve : LinearSolve)
  (iloop : Z) (s : solver_state) (largest : float) (d : Vector) :
  let u := unknowns s in
  let ndof := length u in
  let residuals := residual_fct params u in
  let log2 :=
    (log s ++ [ResidualCall u])
    ++ (if Doc_Progress g then [InfoIteration iloop residuals u] else []) in
  let built :=
    build_jacobian g residual_fct params jacobian_fct ndof residuals u log2 in
  let log4 :=
    (fd_log built
     ++ (if Doc_Progress g then [InfoJacobian (fd_jacobian built)] else []))
    ++ [SolveCall (fd_jacobian built) residuals] in
  let cap :=
    (100 * std_max (euclidean_norm ndof u) (double_of_unsigned ndof))%float in
  let direction :=
    for_loop ndof (fun i v => vset v i (vget v i * -1)%float) d in
  let call :=
    line_search fuel u (merit_at residual_fct params ndof u)
      (merit_gradient ndof (fd_jacobian built) residuals)
      residual_fct params
      {| ls_newton_dir := direction;
         ls_x := u;
         ls_half_residual_squared := merit_at residual_fct params ndof u;
         ls_log := log4 |}
      cap in
  let used := ls_newton_dir (refs_of_result call) in
  Use_step_length_control g = true ->
  max_element AbsCmp residuals = Some largest ->
  (abs largest <? Tol g)%float = false ->
  solve (fd_jacobian built) residuals = Some d ->
  newton_iteration g fuel residual_fct params jacobian_fct solve ndof iloop s
  = after_line_search (incr_unsigned (N_iter_taken s)) call
  /\ (if (cap <? euclidean_norm ndof direction)%float
      then
        length used = length direction
        /\ forall i, i < ndof -> i < length direction ->
             vget used i
             = (vget direction i * (cap / euclidean_norm ndof direction))%float
      else used = direction)
  /\ (forall k x_old f_old gradient r stpmax,
        let n := length x_old in
        let left :=
          ls_newton_dir
            (refs_of_result
               (line_search k x_old f_old gradient residual_fct params
                  r stpmax)) in
        if (stpmax <? euclidean_norm n (ls_newton_dir r))%float
        then
          length left = length (ls_newton_dir r)
          /\ forall i, i < n -> i < length (ls_newton_dir r) ->
               vget left i
               = (vget (ls_newton_dir r) i
                  * (stpmax / euclidean_norm n (ls_newton_dir r)))%float
        else left = ls_newton_dir r).
Proof.
  intros u ndof residuals log2 built log4 cap direction call used
    Hctl Hmax Htol Hsolve.
  split; [|split].
  - rewrite (newton_iteration_unfold g fuel residual_fct params jacobian_fct
               solve ndof iloop s largest Hmax Htol).
    cbv zeta. fold u. fold residuals. fold log2. fold built.
    rewrite Hsolve, Hctl. reflexivity.
  - unfold used, call. rewrite line_search_direction.
    cbn [ls_newton_dir]. apply cap_direction_cases.
  - intros k x_old f_old gradient r stpmax n left. unfold left.
    rewrite line_search_direction. apply cap_direction_cases.
Qed.

Lemma C8_step_cap_witness :
  newton_iteration globals_step_control 3 residual_shifted []
    (Some jacobian_one) solve_1x1 1 0
    {| unknowns := [0%float]; N_iter_taken := 0; log := [] |}
  = after_line_search 1
      (line_search 3 [0%float] 11400.5 [(-151)%float] residual_shifted []
         {| ls_newton_dir := [151%float];
            ls_x := [0%float];
            ls_half_residual_squared := 11400.5;
            ls_log :=
              [ResidualCall [0%float]; JacobianCall [0%float];
               SolveCall [[1%float]] [(-151)%float]] |}
         100)
  /\ (100 <? euclidean_norm 1 [151%float])%float = true
  /\ vget
       (ls_newton_dir
          (refs_of_result
             (line_search 3 [0%float] 11400.5 [(-151)%float]
                residual_shifted []
                {| ls_newton_dir := [151%float];
                   ls_x := [0%float];
                   ls_half_residual_squared := 11400.5;
                   ls_log :=
                     [ResidualCall [0%float]; JacobianCall [0%float];
                      SolveCall [[1%float]] [(-151)%float]] |}
                100)))
       0
     = (151 * (100 / euclidean_norm 1 [151%float]))%float.
Proof.
  pose proof (C8_step_cap globals_step_control 3 residual_shifted []
                (Some jacobian_one) solve_1x1 0
                {| unknowns := [0%float]; N_iter_taken := 0; log := [] |}
                (-151)%float [(-151)%float] eq_refl eq_refl eq_refl eq_refl)
    as (Hcall & Hused & _).
  split; [exact Hcall|]. split; [reflexivity|].
  exact (proj2 Hused 0 (Nat.lt_0_succ 0) (Nat.lt_0_succ 0)).
Defined.

(** C8 fails as stated.  One unknown with value [0] gives the step cap
    [100].  For the residual [r(x) = x - 151] the Newton direction is
    [151], whose norm exceeds the cap; the direction the line search uses
    and leaves behind is [151 * (100 / 151)], the number next above
    [100]: its norm is not the cap.  For the direction [2^600] the sum of
    squares overflows, the norm computed is infinite, [cap / norm] is [0]
    and the direction left behind is [0]: its norm is [0], and the line
    search raises its round-off error. *)
Lemma C8_counterexample :
  max_step_of 1 [0%float] = 100%float
  /\ (100 <? euclidean_norm 1 [151%float])%float = true
  /\ line_search 3 [0%float] 11400.5 [(-151)%float] residual_shifted []
       (refs_of [151%float] [0%float] 11400.5) (max_step_of 1 [0%float])
     = LsReturned SufficientDecrease 1
         {| ls_newton_dir := [0x1.9000000000001p+6%float];
            ls_x := [0x1.9000000000001p+6%float];
            ls_half_residual_squared := 0x1.451fffffffffdp+10;
            ls_log := [ResidualCall [0x1.9000000000001p+6%float]] |}
  /\ euclidean_norm 1 [0x1.9000000000001p+6%float]
     = 0x1.9000000000001p+6%float
  /\ (0x1.9000000000001p+6 =? 100)%float = false
  /\ (100 <? euclidean_norm 1 [0x1p+600%float])%float = true
  /\ line_search 3 [0%float] 0.5 [(-0x1p-600)%float] residual_shifted []
       (refs_of [0x1p+600%float] [0%float] 0.5) (max_step_of 1 [0%float])
     = LsRoundoffError 0
         {| ls_newton_dir := [0%float];
            ls_x := [0%float];
            ls_half_residual_squared := 0.5;
            ls_log := [] |}
  /\ euclidean_norm 1 [0%float] = 0%float
  /\ (0 =? 100)%float = false.
Proof. repeat split; vm_compute; reflexivity. Qed.

(** ** A line search that does not return *)

(** Once the step multiplier is not a number, a pass of the loop for the
    scaled residual neither returns nor changes that. *)
Lemma ls_pass_not_a_number (lg : list event) :
  ls_pass [1%float] infinity residual_scaled [] neg_infinity 1.0e-16 locals_nan
    {| ls_newton_dir := [(-1)%float];
       ls_x := [nan];
       ls_half_residual_squared := nan;
       ls_log := lg |}
  = PassAgain locals_nan
      {| ls_newton_dir := [(-1)%float];
         ls_x := [nan];
         ls_half_residual_squared := nan;
         ls_log := lg ++ [ResidualCall [nan]] |}.
Proof. reflexivity. Qed.

Lemma backtrack_not_a_number (fuel : nat) (lg : list event) :
  exists r,
    backtrack fuel [1%float] infinity residual_scaled [] neg_infinity 1.0e-16
      locals_nan
      {| ls_newton_dir := [(-1)%float];
         ls_x := [nan];
         ls_half_residual_squared := nan;
         ls_log := lg |}
    = LsStillRunning locals_nan r.
Proof.
  revert lg. induction fuel as [|fuel IH]; intros lg.
  - eexists. reflexivity.
  - rewrite backtrack_S, ls_pass_not_a_number. apply IH.
Qed.

(** The first two passes for the scaled residual from [x_old = 1]. *)
Lemma line_search_scaled_two_passes (fuel : nat) (lg : list event) :
  line_search (S (S fuel)) [1%float] infinity [infinity] residual_scaled []
    {| ls_newton_dir := [(-1)%float];
       ls_x := [1%float];
       ls_half_residual_squared := infinity;
       ls_log := lg |} 100
  = backtrack fuel [1%float] infinity residual_scaled [] neg_infinity 1.0e-16
      locals_nan
      {| ls_newton_dir := [(-1)%float];
         ls_x := [nan];
         ls_half_residual_squared := nan;
         ls_log := (lg ++ [ResidualCall [0%float]]) ++ [ResidualCall [nan]] |}.
Proof. reflexivity. Qed.

Lemma line_search_scaled_still_running (fuel : nat) (lg : list event) :
  exists l r,
    line_search fuel [1%float] infinity [infinity] residual_scaled []
      {| ls_newton_dir := [(-1)%float];
         ls_x := [1%float];
         ls_half_residual_squared := infinity;
         ls_log := lg |} 100
    = LsStillRunning l r.
Proof.
  destruct fuel as [|[|fuel]].
  - do 2 eexists. reflexivity.
  - do 2 eexists. reflexivity.
  - rewrite line_search_scaled_two_passes.
    destruct (backtrack_not_a_number fuel
                ((lg ++ [ResidualCall [0%float]]) ++ [ResidualCall [nan]]))
      as [r Hr].
    exists locals_nan, r. exact Hr.
Qed.

(** The driver's first pass for the scaled residual from [unknowns = 1]
    ends in that line search. *)
Lemma solve_scaled_first_pass (fuel : nat) :
  black_box_fd_newton_solve globals_step_control fuel residual_scaled []
    [1%float] (Some jacobian_scaled) solve_1x1
  = match
      after_line_search 1
        (line_search fuel [1%float] infinity [infinity] residual_scaled []
           {| ls_newton_dir := [(-1)%float];
              ls_x := [1%float];
              ls_half_residual_squared := infinity;
              ls_log :=
                [ResidualCall [1%float]; JacobianCall [1%float];
                 SolveCall [[0x1p+600%float]] [0x1p+600%float]] |} 100)
    with
    | IterReturn s' => (Returned, s')
    | IterNext s' =>
        newton_loop globals_step_control fuel residual_scaled []
          (Some jacobian_scaled) solve_1x1 1 19 1 s'
    | IterStop o s' => (o, s')
    end.
Proof. reflexivity. Qed.

(** C6: the code at the failing input.  The residual is [r(x) = 2^600 x],
    the point is [x_old = 1] and the direction is the Newton direction
    [-1], which leads to the root; the slope is minus infinity, below
    zero.  The merit value at [x_old] and the gradient are infinite, the
    sufficient-decrease test compares with a value that is not a number
    and fails, the proposed multiplier is not a number, and from the second
    pass on no test of the loop can succeed: [line_search] is still
    running after any number of passes, and so is the driver that called
    it from [unknowns = 1] with step length control on. *)
Theorem C6_line_search_never_returns :
  (directional_slope 1 [infinity] (cap_direction 1 [(-1)%float] 100) <? 0)%float
  = true
  /\ (forall fuel, exists l r,
        line_search fuel [1%float] infinity [infinity] residual_scaled []
          (refs_of [(-1)%float] [1%float] infinity) 100
        = LsStillRunning l r)
  /\ (forall fuel,
        fst (black_box_fd_newton_solve globals_step_control fuel
               residual_scaled [] [1%float] (Some jacobian_scaled) solve_1x1)
        = LineSearchStillRunning).
Proof.
  split; [reflexivity|]. split.
  - intros fuel. apply line_search_scaled_still_running.
  - intros fuel. rewrite solve_scaled_first_pass.
    destruct (line_search_scaled_still_running fuel
                [ResidualCall [1%float]; JacobianCall [1%float];
                 SolveCall [[0x1p+600%float]] [0x1p+600%float]])
      as (l & r & ->).
    reflexivity.
Qed.

(** ** The driver *)

Lemma max_res_Some (residuals : Vector) (m : float) :
  max_res residuals = Some m ->
  exists largest,
    max_element AbsCmp residuals = Some largest /\ m = abs largest.
Proof.
  unfold max_res. destruct (max_element AbsCmp residuals) as [largest|];
    simpl; [|discriminate].
  intros [= <-]. exists largest. split; reflexivity.
Qed.

Lemma max_element_nonempty (residuals : Vector) :
  residuals <> [] -> exists largest, max_element AbsCmp residuals = Some largest.
Proof.
  destruct residuals as [|a rest]; [congruence|].
  intros _. eexists. reflexivity.
Qed.

(** A pass that passes the convergence test returns at once. *)
Lemma newton_iteration_converged (g : Globals) (fuel : nat)
  (residual_fct : ResidualFctPt) (params : Vector)
  (jacobian_fct : option JacobianFctPt) (solve : LinearSolve)
  (ndof : nat) (iloop : Z) (s : solver_state) (largest : float) :
  max_element AbsCmp (residual_fct params (unknowns s)) = Some largest ->
  (abs largest <? Tol g)%float = true ->
  newton_iteration g fuel residual_fct params jacobian_fct solve ndof iloop s
  = IterReturn
      {| unknowns := unknowns s;
         N_iter_taken := N_iter_taken s;
         log :=
           (log s ++ [ResidualCall (unknowns s)])
           ++ (if Doc_Progress g
               then [InfoIteration iloop (residual_fct params (unknowns s))
                       (unknowns s)]
               else []) |}.
Proof.
  intros Hmax Htol. unfold newton_iteration. rewrite Hmax, Htol.
  destruct (Doc_Progress g); [reflexivity|rewrite app_nil_r; reflexivity].
Qed.

(** What a pass of the driver's loop can do. *)
Lemma newton_iteration_cases (g : Globals) (fuel : nat)
  (residual_fct : ResidualFctPt) (params : Vector)
  (jacobian_fct : option JacobianFctPt) (solve : LinearSolve)
  (ndof : nat) (iloop : Z) (s : solver_state) :
  (forall u, length (residual_fct params u) = length u) ->
  unknowns s <> [] ->
  match
    newton_iteration g fuel residual_fct params jacobian_fct solve ndof iloop s
  with
  | IterReturn s' =>
      below_tolerance g residual_fct params (unknowns s')
      /\ unknowns s' = unknowns s
      /\ N_iter_taken s' = N_iter_taken s
  | IterNext s' =>
      test_fails g residual_fct params (unknowns s)
      /\ N_iter_taken s' = incr_unsigned (N_iter_taken s)
      /\ length (unknowns s') = length (unknowns s)
  | IterStop o s' =>
      test_fails g residual_fct params (unknowns s)
      /\ (o = Thrown LinearSolverError
          \/ (Use_step_length_control g = true
              /\ ((exists slope, o = Thrown (RoundoffError slope))
                  \/ o = LineSearchStillRunning)))
  end.
Proof.
  intros Hsize Hne.
  destruct (max_element_nonempty (residual_fct params (unknowns s)))
    as [largest Hmax].
  { intros Hnil. apply Hne. apply length_zero_iff_nil.
    rewrite <- Hsize, Hnil. reflexivity. }
  destruct (abs largest <? Tol g)%float eqn:Htol.
  - rewrite (newton_iteration_converged g fuel residual_fct params
               jacobian_fct solve ndof iloop s largest Hmax Htol).
    simpl. repeat split. exists (abs largest). unfold max_res.
    rewrite Hmax. split; [reflexivity|exact Htol].
  - assert (Hfail : test_fails g residual_fct params (unknowns s)).
    { exists (abs largest). unfold max_res. rewrite Hmax.
      split; [reflexivity|exact Htol]. }
    rewrite (newton_iteration_unfold g fuel residual_fct params jacobian_fct
               solve ndof iloop s largest Hmax Htol).
    cbv zeta. destruct (solve _ _) as [d|].
    + destruct (Use_step_length_control g) eqn:Hctl.
      * destruct (line_search _ _ _ _ _ _ _ _) as [how lam r'|slope r'|l r']
          eqn:Hls; simpl.
        -- split; [exact Hfail|]. split; [reflexivity|].
           apply line_search_returned_length in Hls. exact Hls.
        -- split; [exact Hfail|]. right. split; [reflexivity|].
           left. exists slope. reflexivity.
        -- split; [exact Hfail|]. right. split; [reflexivity|].
           right. reflexivity.
      * simpl. split; [exact Hfail|]. split; [reflexivity|].
        apply (length_pointwise_loop ndof (fun i a => (a - vget d i)%float)).
    + split; [exact Hfail|]. left. reflexivity.
Qed.

(** [k] increments of an [unsigned] that starts at zero. *)
Lemma iter_incr_unsigned (k : nat) :
  (Z.of_nat k < 2 ^ 32)%Z -> Nat.iter k incr_unsigned 0%Z = Z.of_nat k.
Proof.
  induction k as [|k IH]; intros Hk; [reflexivity|].
  simpl Nat.iter. rewrite IH by lia. unfold incr_unsigned.
  rewrite Z.mod_small by lia. lia.
Qed.

Lemma failed_passes_counter (g : Globals) (fuel : nat)
  (residual_fct : ResidualFctPt) (params : Vector)
  (jacobian_fct : option JacobianFctPt) (solve : LinearSolve) (ndof : nat)
  (k : nat) (iloop : Z) (s s' : solver_state) :
  (forall u, length (residual_fct params u) = length u) ->
  unknowns s <> [] ->
  failed_passes g fuel residual_fct params jacobian_fct solve ndof k iloop s s' ->
  N_iter_taken s' = Nat.iter k incr_unsigned (N_iter_taken s).
Proof.
  intros Hsize Hne Hpasses.
  induction Hpasses as [iloop s|k iloop s s1 s2 _ Hstep _ IH]; [reflexivity|].
  pose proof (newton_iteration_cases g fuel residual_fct params jacobian_fct
                solve ndof iloop s Hsize Hne) as Hcases.
  rewrite Hstep in Hcases. destruct Hcases as (_ & Hcount & Hlen).
  rewrite Nat.iter_succ_r, <- Hcount. apply IH.
  intros Hnil. apply Hne. apply length_zero_iff_nil.
  rewrite <- Hlen, Hnil. reflexivity.
Qed.

(** Passes that all fail the test and complete end in the error. *)
Lemma failed_passes_loop (g : Globals) (fuel : nat)
  (residual_fct : ResidualFctPt) (params : Vector)
  (jacobian_fct : option JacobianFctPt) (solve : LinearSolve) (ndof : nat)
  (k : nat) (iloop : Z) (s s' : solver_state) :
  failed_passes g fuel residual_fct params jacobian_fct solve ndof k iloop s s' ->
  newton_loop g fuel residual_fct params jacobian_fct solve ndof k iloop s
  = (Thrown (ConvergenceFailure (Max_iter g)), s').
Proof.
  intros Hpasses.
  induction Hpasses as [iloop s|k iloop s s1 s2 _ Hstep _ IH]; [reflexivity|].
  simpl. rewrite Hstep. exact IH.
Qed.

(** The ways the driver's loop can end. *)
Lemma newton_loop_outcomes (g : Globals) (fuel : nat)
  (residual_fct : ResidualFctPt) (params : Vector)
  (jacobian_fct : option JacobianFctPt) (solve : LinearSolve) (ndof : nat)
  (todo : nat) (iloop : Z) (s : solver_state) :
  (forall u, length (residual_fct params u) = length u) ->
  unknowns s <> [] ->
  let res :=
    newton_loop g fuel residual_fct params jacobian_fct solve ndof
      todo iloop s in
  (fst res = Returned
   /\ below_tolerance g residual_fct params (unknowns (snd res)))
  \/ (fst res = Thrown (ConvergenceFailure (Max_iter g))
      /\ failed_passes g fuel residual_fct params jacobian_fct solve ndof
           todo iloop s (snd res))
  \/ fst res = Thrown LinearSolverError
  \/ (Use_step_length_control g = true
      /\ ((exists slope, fst res = Thrown (RoundoffError slope))
          \/ fst res = LineSearchStillRunning)).
Proof.
  intros Hsize. revert iloop s.
  induction todo as [|todo IH]; intros iloop s Hne; cbv zeta.
  - right. left. split; [reflexivity|]. apply failed_passes_O.
  - simpl.
    pose proof (newton_iteration_cases g fuel residual_fct params jacobian_fct
                  solve ndof iloop s Hsize Hne) as Hcases.
    destruct (newton_iteration g fuel residual_fct params jacobian_fct solve
                ndof iloop s) as [s1|s1|o s1] eqn:Hstep.
    + left. simpl. destruct Hcases as (Hbelow & _). split; [reflexivity|].
      exact Hbelow.
    + destruct Hcases as (Hfail & _ & Hlen).
      assert (Hne1 : unknowns s1 <> []).
      { intros Hnil. apply Hne. apply length_zero_iff_nil.
        rewrite <- Hlen, Hnil. reflexivity. }
      destruct (IH (incr_unsigned iloop) s1 Hne1)
        as [H|[(Hout & Hpasses)|H]]; [left; exact H| |right; right; exact H].
      right. left. split; [exact Hout|].
      eapply failed_passes_S; eassumption.
    + simpl. destruct Hcases as (_ & H). right. right. exact H.
Qed.

(** C2.  When the residual at the initial unknowns already has its largest
    absolute value below [Tol] (which requires a non-empty vector) and
    [Max_iter] is positive, the call returns at once: [N_iter_taken] is 0,
    the unknowns are unchanged, the residual function has been called
    once, and no Jacobian has been built and no linear system solved,
    whatever Jacobian function and solver were passed.  Calling the solver
    again on the returned unknowns gives the same result. *)
Theorem C2_converged_on_entry (g : Globals) (fuel : nat)
  (residual_fct : ResidualFctPt) (params u0 : Vector)
  (jacobian_fct : option JacobianFctPt) (solve : LinearSolve) (m : float) :
  (0 < Max_iter g)%Z ->
  max_res (residual_fct params u0) = Some m ->
  (m <? Tol g)%float = true ->
  let res :=
    black_box_fd_newton_solve g fuel residual_fct params u0
      jacobian_fct solve in
  res
  = (Returned,
     {| unknowns := u0;
        N_iter_taken := 0;
        log :=
          [ResidualCall u0]
          ++ (if Doc_Progress g
              then [InfoIteration 0 (residual_fct params u0) u0]
              else []) |})
  /\ forallb (fun e => negb (is_jacobian_or_solve e)) (log (snd res)) = true
  /\ forall fuel' jacobian_fct' solve',
       black_box_fd_newton_solve g fuel' residual_fct params
         (unknowns (snd res)) jacobian_fct' solve'
       = res.
Proof.
  intros Hmax Hres Htol.
  destruct (max_res_Some _ _ Hres) as (largest & Hlargest & ->).
  assert (Hall : forall fuel' jf' solve',
    black_box_fd_newton_solve g fuel' residual_fct params u0 jf' solve'
    = (Returned,
       {| unknowns := u0;
          N_iter_taken := 0;
          log :=
            [ResidualCall u0]
            ++ (if Doc_Progress g
                then [InfoIteration 0 (residual_fct params u0) u0]
                else []) |})).
  { intros fuel' jf' solve'. unfold black_box_fd_newton_solve.
    destruct (Z.to_nat (Max_iter g)) as [|todo] eqn:Htodo; [lia|].
    simpl newton_loop.
    rewrite (newton_iteration_converged g fuel' residual_fct params jf'
               solve' (length u0) 0
               {| unknowns := u0; N_iter_taken := 0; log := [] |}
               largest Hlargest Htol).
    reflexivity. }
  cbv zeta. rewrite Hall. simpl. split; [reflexivity|]. split.
  - destruct (Doc_Progress g); reflexivity.
  - intros fuel' jf' solve'. apply Hall.
Qed.

Lemma C2_converged_on_entry_witness :
  black_box_fd_newton_solve default_globals 3 residual_identity []
    [0%float] None solve_1x1
  = (Returned,
     {| unknowns := [0%float];
        N_iter_taken := 0;
        log := [ResidualCall [0%float]] |}).
Proof.
  pose proof (C2_converged_on_entry default_globals 3 residual_identity []
                [0%float] None solve_1x1 0%float) as H.
  cbv zeta in H. destruct H as (H & _); [reflexivity..|]. exact H.
Defined.

(** C1, as the code has it.  For a non-empty vector of unknowns and a
    residual function that fills a vector of the same size, a call ends in
    one of these ways: it returns, and the largest absolute residual at the
    returned unknowns is below [Tol]; it throws the convergence failure; the
    linear solver raises its error; or, with step length control on, the
    line search raises its round-off error or does not return.  The
    convergence failure is thrown exactly when each of the [Max_iter]
    passes of the loop failed the convergence test made at its start and
    completed its Newton step; [N_iter_taken] is then [Max_iter]. *)
Theorem C1_outcomes_of_solve (g : Globals) (fuel : nat)
  (residual_fct : ResidualFctPt) (params u0 : Vector)
  (jacobian_fct : option JacobianFctPt) (solve : LinearSolve) :
  (0 <= Max_iter g < 2 ^ 32)%Z ->
  u0 <> [] ->
  (forall u, length (residual_fct params u) = length u) ->
  let res :=
    black_box_fd_newton_solve g fuel residual_fct params u0
      jacobian_fct solve in
  let passes :=
    failed_passes g fuel residual_fct params jacobian_fct solve (length u0)
      (Z.to_nat (Max_iter g)) 0
      {| unknowns := u0; N_iter_taken := 0; log := [] |} in
  ((fst res = Returned
    /\ below_tolerance g residual_fct params (unknowns (snd res)))
   \/ fst res = Thrown (ConvergenceFailure (Max_iter g))
   \/ fst res = Thrown LinearSolverError
   \/ (Use_step_length_control g = true
       /\ ((exists slope, fst res = Thrown (RoundoffError slope))
           \/ fst res = LineSearchStillRunning)))
  /\ ((exists n, fst res = Thrown (ConvergenceFailure n))
      <-> exists s', passes s')
  /\ ((exists n, fst res = Thrown (ConvergenceFailure n)) ->
      passes (snd res) /\ N_iter_taken (snd res) = Max_iter g).
Proof.
  intros Hrange Hne Hsize res passes.
  pose proof (newton_loop_outcomes g fuel residual_fct params jacobian_fct
                solve (length u0) (Z.to_nat (Max_iter g)) 0
                {| unknowns := u0; N_iter_taken := 0; log := [] |}
                Hsize Hne) as Hout.
  cbv zeta in Hout. fold (black_box_fd_newton_solve g fuel residual_fct
                            params u0 jacobian_fct solve) in Hout.
  fold res in Hout. fold passes in Hout.
  assert (Hthrown : (exists n, fst res = Thrown (ConvergenceFailure n)) ->
                    passes (snd res)).
  { intros [n Hn].
    destruct Hout as [(H & _)|[(_ & H)|[H|(_ & [[slope H]|H])]]];
      try (rewrite H in Hn; discriminate Hn).
    exact H. }
  split; [|split].
  - destruct Hout as [H|[(H & _)|H]];
      [left; exact H|right; left; exact H|right; right; exact H].
  - split.
    + intros H. exists (snd res). apply Hthrown. exact H.
    + intros [s' Hs']. exists (Max_iter g). unfold res.
      unfold black_box_fd_newton_solve.
      rewrite (failed_passes_loop _ _ _ _ _ _ _ _ _ _ _ Hs'). reflexivity.
  - intros H. pose proof (Hthrown H) as Hpasses. split; [exact Hpasses|].
    rewrite (failed_passes_counter g fuel residual_fct params jacobian_fct
               solve (length u0) (Z.to_nat (Max_iter g)) 0
               {| unknowns := u0; N_iter_taken := 0; log := [] |}
               (snd res) Hsize Hne Hpasses).
    simpl N_iter_taken. rewrite iter_incr_unsigned by lia. lia.
Qed.

Lemma C1_outcomes_of_solve_witness :
  N_iter_taken
    (snd (black_box_fd_newton_solve globals_one_iteration 3 residual_identity
            [] [5%float] (Some jacobian_one) solve_1x1))
  = Max_iter globals_one_iteration.
Proof.
  assert (Hrange : (0 <= Max_iter globals_one_iteration < 2 ^ 32)%Z).
  { split; [discriminate|reflexivity]. }
  assert (Hne : [5%float] <> []) by discriminate.
  pose proof (C1_outcomes_of_solve globals_one_iteration 3 residual_identity
                [] [5%float] (Some jacobian_one) solve_1x1 Hrange Hne
                (fun u => eq_refl)) as H.
  cbv zeta in H. destruct H as (_ & _ & H).
  destruct H as (_ & H); [|exact H].
  exists 1%Z. reflexivity.
Defined.

(** C1 fails as stated, in two ways.  With a budget of one iteration, the
    residual [r(x) = x] and the start [5], the single Newton step lands on
    the root [0], where the residual is below [Tol]; the loop ends without
    testing it and the convergence failure is thrown.  With step length
    control on, the residual [r(x) = 2^-1000 x + 1], its exact Jacobian
    and the start [0], the capped direction and the slope are zero, and
    the call ends with the round-off error of the line search: it neither
    returns nor throws the convergence failure. *)
Lemma C1_counterexample :
  (black_box_fd_newton_solve globals_one_iteration 3 residual_identity []
     [5%float] (Some jacobian_one) solve_1x1
   = (Thrown (ConvergenceFailure 1),
      {| unknowns := [0%float];
         N_iter_taken := 1;
         log :=
           [ResidualCall [5%float]; JacobianCall [5%float];
            SolveCall [[1%float]] [5%float]] |})
   /\ max_res (residual_identity [] [0%float]) = Some 0%float
   /\ (0 <? Tol globals_one_iteration)%float = true)
  /\ black_box_fd_newton_solve globals_step_control 3 residual_flat []
       [0%float] (Some jacobian_flat) solve_1x1
     = (Thrown (RoundoffError 0),
        {| unknowns := [0%float];
           N_iter_taken := 1;
           log :=
             [ResidualCall [0%float]; JacobianCall [0%float];
              SolveCall [[0x1p-1000%float]] [1%float]] |}).
Proof. repeat split; vm_compute; reflexivity. Qed.

(* ===================================================================== *)
(** * Further properties of the solver *)
(* ===================================================================== *)

(** ** The order of binary64 numbers *)

Lemma SFltb_irrefl (a : spec_float) : SFltb a a = false.
Proof. unfold SFltb, SFcompare. destruct a as [s|s| |s m e]; sf_order. Qed.

Lemma SFltb_trans (a b c : spec_float) :
  SFltb a b = true -> SFltb b c = true -> SFltb a c = true.
Proof.
  unfold SFltb, SFcompare.
  destruct a as [sa|sa| |sa ma ea], b as [sb|sb| |sb mb eb],
    c as [sc|sc| |sc mc ec];
    intros H1 H2; sf_order.
Qed.

Lemma SFltb_below (a m t : spec_float) :
  SFltb m a = false -> SFltb m t = true -> a <> S754_nan ->
  SFltb a t = true.
Proof.
  unfold SFltb, SFcompare.
  destruct a as [sa|sa| |sa ma ea], m as [sb|sb| |sb mb eb],
    t as [sc|sc| |sc mc ec];
    intros H1 H2 H3; try congruence; sf_order.
Qed.

Lemma SFeqb_refl (a : spec_float) : a <> S754_nan -> SFeqb a a = true.
Proof.
  unfold SFeqb, SFcompare. destruct a as [s|s| |s m e]; intros H;
    try congruence; sf_order.
Qed.

Lemma ltb_irrefl (a : float) : (a <? a)%float = false.
Proof. rewrite ltb_spec. apply SFltb_irrefl. Qed.

Lemma ltb_trans (a b c : float) :
  (a <? b)%float = true -> (b <? c)%float = true -> (a <? c)%float = true.
Proof.
  intros Hab Hbc. rewrite ltb_spec in Hab, Hbc. rewrite ltb_spec.
  exact (SFltb_trans _ _ _ Hab Hbc).
Qed.

Lemma ltb_asym (a b : float) :
  (a <? b)%float = true -> (b <? a)%float = false.
Proof.
  intros Hab. destruct (b <? a)%float eqn:Hba; [|reflexivity].
  pose proof (ltb_trans a b a Hab Hba) as H. rewrite ltb_irrefl in H.
  discriminate H.
Qed.

(** A number that is not above the largest, itself below a bound, is
    below the bound, unless it is not a number. *)
Lemma abs_below_bound (a m t : float) :
  (m <? abs a)%float = false -> (m <? t)%float = true ->
  (abs a <? t)%float = true \/ is_nan a = true.
Proof.
  intros Hma Hmt. unfold is_nan.
  rewrite ltb_spec in Hma, Hmt. rewrite ltb_spec, FloatAxioms.eqb_spec.
  rewrite abs_spec in Hma. rewrite abs_spec.
  destruct (Prim2SF a) as [s|s| |s ma ea] eqn:Ea.
  - left. apply (SFltb_below _ _ _ Hma Hmt). discriminate.
  - left. apply (SFltb_below _ _ _ Hma Hmt). discriminate.
  - right. reflexivity.
  - left. apply (SFltb_below _ _ _ Hma Hmt). discriminate.
Qed.

(** ** The convergence test *)

(** The scan keeps an element that none of the elements scanned beats. *)
Lemma max_element_from_spec (rest : list float) (largest : float) :
  let m := max_element_from AbsCmp largest rest in
  (m = largest \/ (AbsCmp largest m = true /\ m ∈ rest))
  /\ forall y, y ∈ rest -> AbsCmp m y = false.
Proof.
  revert largest. induction rest as [|y rest IH]; intros largest; cbv zeta.
  - simpl. split; [left; reflexivity|]. intros y Hy. inversion Hy.
  - simpl. destruct (AbsCmp largest y) eqn:Hcmp.
    + destruct (IH y) as ([Hm|(Hlt & Hin)] & Hall).
      * split.
        -- right. rewrite Hm. split; [exact Hcmp|]. apply list_elem_of_here.
        -- intros z Hz. apply elem_of_cons in Hz as [->|Hz];
             [|apply Hall; exact Hz].
           rewrite Hm. apply ltb_irrefl.
      * split.
        -- right. split; [|apply list_elem_of_further; exact Hin].
           exact (ltb_trans _ _ _ Hcmp Hlt).
        -- intros z Hz. apply elem_of_cons in Hz as [->|Hz];
             [|apply Hall; exact Hz].
           apply ltb_asym. exact Hlt.
    + destruct (IH largest) as ([Hm|(Hlt & Hin)] & Hall).
      * split; [left; exact Hm|].
        intros z Hz. apply elem_of_cons in Hz as [->|Hz];
          [|apply Hall; exact Hz].
        rewrite Hm. exact Hcmp.
      * split; [right; split; [exact Hlt|apply list_elem_of_further; exact Hin]|].
        intros z Hz. apply elem_of_cons in Hz as [->|Hz];
          [|apply Hall; exact Hz].
        destruct (AbsCmp (max_element_from AbsCmp largest rest) y) eqn:Hmy;
          [|reflexivity].
        pose proof (ltb_trans _ _ _ Hlt Hmy) as Hly.
        unfold AbsCmp in Hcmp. rewrite Hcmp in Hly. discriminate Hly.
Qed.

(** The element found is a component, and none has a larger absolute
    value. *)
Lemma max_element_largest (residuals : Vector) (m : float) :
  max_element AbsCmp residuals = Some m ->
  m ∈ residuals
  /\ forall y, y ∈ residuals -> (abs m <? abs y)%float = false.
Proof.
  destruct residuals as [|a rest]; [discriminate|].
  simpl. intros [= <-].
  destruct (max_element_from_spec rest a) as ([Hm|(Hlt & Hin)] & Hall).
  - split; [rewrite Hm; apply list_elem_of_here|].
    intros y Hy. apply elem_of_cons in Hy as [->|Hy];
      [|apply Hall; exact Hy].
    rewrite Hm. apply ltb_irrefl.
  - split; [apply list_elem_of_further; exact Hin|].
    intros y Hy. apply elem_of_cons in Hy as [->|Hy];
      [|apply Hall; exact Hy].
    apply ltb_asym. exact Hlt.
Qed.

(** X1.  The number whose absolute value the driver compares with [Tol]
    (lines 110-111) is a component of the residual vector, and no
    component has a larger absolute value. *)
Theorem X1_max_element_is_largest (residuals : Vector) (m : float) :
  max_element AbsCmp residuals = Some m ->
  m ∈ residuals
  /\ forall y, y ∈ residuals -> (abs m <? abs y)%float = false.
Proof. apply max_element_largest. Qed.

Lemma X1_max_element_is_largest_witness :
  max_element AbsCmp [1%float; (-3)%float; 2%float] = Some (-3)%float
  /\ (-3)%float ∈ [1%float; (-3)%float; 2%float].
Proof.
  split; [reflexivity|].
  exact (proj1 (X1_max_element_is_largest [1%float; (-3)%float; 2%float]
                  (-3)%float eq_refl)).
Defined.

(** ** The step multiplier of the line search *)

(** X10.  The multiplier for the next pass of the line search is never
    below one tenth of the current one (line 363), and on every backtrack
    but the first (the current multiplier is not [1]) the proposed
    multiplier is never above half of the current one (lines 355-358). *)
Theorem X10_clamps_of_the_multiplier
  (slope f f_old lam lam_aux f_aux : float) :
  (next_lambda slope f f_old lam lam_aux f_aux <? 0.1 * lam)%float = false
  /\ ((lam =? 1)%float = false ->
      (0.5 * lam <? propose_lambda slope f f_old lam lam_aux f_aux)%float
      = false).
Proof.
  split.
  - unfold next_lambda, std_max.
    destruct (propose_lambda slope f f_old lam lam_aux f_aux <? 0.1 * lam)%float
      eqn:Hlow; [apply ltb_irrefl|exact Hlow].
  - intros Hne. unfold propose_lambda. rewrite Hne. cbv zeta.
    match goal with
    | |- context [if (0.5 * lam <? ?p)%float then _ else _] =>
        destruct (0.5 * lam <? p)%float eqn:Hhigh;
        [apply ltb_irrefl|exact Hhigh]
    end.
Qed.

Lemma X10_clamps_of_the_multiplier_witness :
  (0.5 * 0.5 <? propose_lambda (-1) 3 1 0.5 1 2)%float = false.
Proof.
  exact (proj2 (X10_clamps_of_the_multiplier (-1) 3 1 0.5 1 2) eq_refl).
Defined.

(** ** Logs *)

Lemma without_info_app (a b : list event) :
  without_info (a ++ b) = without_info a ++ without_info b.
Proof. apply List.filter_app. Qed.

Lemma count_solves_app (a b : list event) :
  count_solves (a ++ b) = count_solves a + count_solves b.
Proof.
  unfold count_solves. rewrite List.filter_app, length_app. reflexivity.
Qed.

Lemma count_residual_calls_app (a b : list event) :
  count_residual_calls (a ++ b)
  = count_residual_calls a + count_residual_calls b.
Proof.
  unfold count_residual_calls. rewrite List.filter_app, length_app.
  reflexivity.
Qed.

Lemma quiet_without_info (lg : list event) :
  forallb is_quiet lg = true -> without_info lg = lg.
Proof.
  induction lg as [|e lg IH]; [reflexivity|]. simpl.
  intros H. apply andb_prop in H as [He Hlg]. unfold is_quiet in He.
  apply andb_prop in He as [He _]. rewrite He, (IH Hlg). reflexivity.
Qed.

Lemma quiet_count_solves (lg : list event) :
  forallb is_quiet lg = true -> count_solves lg = 0.
Proof.
  induction lg as [|e lg IH]; [reflexivity|]. simpl.
  intros H. apply andb_prop in H as [He Hlg]. unfold is_quiet in He.
  apply andb_prop in He as [_ He]. unfold count_solves in *. simpl.
  destruct (is_solve e); [discriminate He|]. apply IH. exact Hlg.
Qed.

Lemma line_search_events_quiet (lg : list event) :
  forallb is_line_search_event lg = true -> forallb is_quiet lg = true.
Proof.
  induction lg as [|e lg IH]; [reflexivity|]. simpl.
  intros H. apply andb_prop in H as [He Hlg]. rewrite (IH Hlg).
  destruct e; try discriminate He; reflexivity.
Qed.

(** ** The line search and its log *)

(** Two runs of the loop that start from references differing at most in
    the log do the same, and add the same events. *)
Lemma backtrack_two_logs (fuel : nat) (x_old : Vector) (f_old : float)
  (residual_fct : ResidualFctPt) (params : Vector) (slope lmin : float)
  (l : ls_locals) (r1 r2 : ls_refs) :
  ls_newton_dir r1 = ls_newton_dir r2 ->
  ls_x r1 = ls_x r2 ->
  ls_half_residual_squared r1 = ls_half_residual_squared r2 ->
  let res1 :=
    backtrack fuel x_old f_old residual_fct params slope lmin l r1 in
  let res2 :=
    backtrack fuel x_old f_old residual_fct params slope lmin l r2 in
  exists extra,
    forallb is_line_search_event extra = true
    /\ ls_log (refs_of_result res1) = ls_log r1 ++ extra
    /\ ls_log (refs_of_result res2) = ls_log r2 ++ extra
    /\ forget_ls_log res1 = forget_ls_log res2
    /\ length (ls_x (refs_of_result res1)) = length (ls_x r1).
Proof.
  revert l r1 r2. induction fuel as [|fuel IH]; intros l r1 r2 Hd Hx Hf.
  - exists []. simpl. rewrite !app_nil_r, Hd, Hx, Hf. repeat split.
  - cbv zeta. rewrite !backtrack_S. unfold ls_pass.
    rewrite <- Hd, <- Hx.
    set (x1 := trial_point (length x_old) x_old (ls_newton_dir r1)
                 (lambda l) (ls_x r1)).
    set (f := half_sum_sq (length x_old) (residual_fct params x1)).
    destruct (lambda l <? lmin)%float.
    + exists [ResidualCall x1;
              WarningIssued "Warning: Line search converged on x only!"].
      simpl. rewrite <- !app_assoc. repeat split.
      unfold x1. rewrite length_restore_point, length_trial_point.
      reflexivity.
    + destruct (f <=? f_old + min_fct_decrease * lambda l * slope)%float.
      * exists [ResidualCall x1]. simpl. repeat split.
        unfold x1. rewrite length_trial_point. reflexivity.
      * match goal with
        | |- context [backtrack fuel _ _ _ _ _ _ ?l' ?ra] =>
            match goal with
            | |- context [backtrack fuel _ _ _ _ _ _ l' ?rb] =>
                lazymatch rb with
                | ra => fail
                | _ =>
                    destruct (IH l' ra rb eq_refl eq_refl eq_refl)
                      as (extra & Hq & Hl1 & Hl2 & Hfg & Hlen)
                end
            end
        end.
        cbv zeta in Hl1, Hl2, Hfg, Hlen. simpl in Hl1, Hl2, Hlen.
        exists (ResidualCall x1 :: extra). simpl.
        split; [exact Hq|]. split; [rewrite Hl1, <- app_assoc; reflexivity|].
        split; [rewrite Hl2, <- app_assoc; reflexivity|].
        split; [exact Hfg|].
        rewrite Hlen. unfold x1. apply length_trial_point.
Qed.

(** The same for the whole line search. *)
Lemma line_search_two_logs (fuel : nat) (x_old : Vector) (f_old : float)
  (gradient : Vector) (residual_fct : ResidualFctPt) (params : Vector)
  (r1 r2 : ls_refs) (stpmax : float) :
  ls_newton_dir r1 = ls_newton_dir r2 ->
  ls_x r1 = ls_x r2 ->
  ls_half_residual_squared r1 = ls_half_residual_squared r2 ->
  let res1 :=
    line_search fuel x_old f_old gradient residual_fct params r1 stpmax in
  let res2 :=
    line_search fuel x_old f_old gradient residual_fct params r2 stpmax in
  exists extra,
    forallb is_line_search_event extra = true
    /\ ls_log (refs_of_result res1) = ls_log r1 ++ extra
    /\ ls_log (refs_of_result res2) = ls_log r2 ++ extra
    /\ forget_ls_log res1 = forget_ls_log res2
    /\ length (ls_x (refs_of_result res1)) = length (ls_x r1).
Proof.
  intros Hd Hx Hf. cbv zeta. rewrite !line_search_unfold. cbv zeta.
  rewrite <- Hd, <- Hx, <- Hf.
  destruct (0 <=? _)%float.
  - exists []. simpl. rewrite !app_nil_r. repeat split.
  - match goal with
    | |- context [backtrack fuel _ _ _ _ ?sl ?lm ?l0 ?ra] =>
        match goal with
        | |- context [backtrack fuel _ _ _ _ sl lm l0 ?rb] =>
            lazymatch rb with
            | ra => fail
            | _ =>
                destruct (backtrack_two_logs fuel x_old f_old residual_fct
                            params sl lm l0 ra rb eq_refl eq_refl eq_refl)
                  as (extra & Hq & Hl1 & Hl2 & Hfg & Hlen)
            end
        end
    end.
    exists extra. repeat split; assumption.
Qed.

(** X11.  However [line_search] ends (a return by either exit, the
    round-off error, or a loop still running), [x] and [newton_dir] have
    the sizes they had on entry. *)
Theorem X11_line_search_keeps_sizes (fuel : nat) (x_old : Vector)
  (f_old : float) (gradient : Vector) (residual_fct : ResidualFctPt)
  (params : Vector) (r : ls_refs) (stpmax : float) :
  let r' :=
    refs_of_result
      (line_search fuel x_old f_old gradient residual_fct params r stpmax) in
  length (ls_x r') = length (ls_x r)
  /\ length (ls_newton_dir r') = length (ls_newton_dir r).
Proof.
  cbv zeta. split.
  - destruct (line_search_two_logs fuel x_old f_old gradient residual_fct
                params r r stpmax eq_refl eq_refl eq_refl)
      as (extra & _ & _ & _ & _ & Hlen).
    exact Hlen.
  - rewrite line_search_direction. apply length_cap_direction.
Qed.

(** ** The Jacobian and the log *)

Lemma for_loop_ext {St : Type} (n : nat) (body1 body2 : nat -> St -> St)
  (s : St) :
  (forall i t, body1 i t = body2 i t) ->
  for_loop n body1 s = for_loop n body2 s.
Proof.
  intros Hbody. induction n as [|n IH]; [reflexivity|].
  rewrite !for_loop_S, IH. apply Hbody.
Qed.

(** The Jacobian built depends on the configuration through [FD_step]
    only. *)
Lemma build_jacobian_same_step (g1 g2 : Globals)
  (residual_fct : ResidualFctPt) (params : Vector)
  (jacobian_fct : option JacobianFctPt) (ndof : nat)
  (residuals u : Vector) (lg : list event) :
  FD_step g1 = FD_step g2 ->
  build_jacobian g1 residual_fct params jacobian_fct ndof residuals u lg
  = build_jacobian g2 residual_fct params jacobian_fct ndof residuals u lg.
Proof.
  intros Hstep. destruct jacobian_fct as [jf|]; [reflexivity|]. simpl.
  unfold fd_jacobian_loop. apply for_loop_ext. intros i t.
  unfold fd_column. rewrite Hstep. reflexivity.
Qed.

(** Building the Jacobian does not read the log: it adds its events to
    it. *)
Lemma fd_loop_prepends (g : Globals) (residual_fct : ResidualFctPt)
  (params : Vector) (ndof : nat) (residuals : Vector) (k : nat)
  (u : Vector) (jac : DenseDoubleMatrix) (lg : list event) :
  let run lg0 :=
    for_loop k (fd_column g residual_fct params ndof residuals)
      {| fd_unknowns := u; fd_jacobian := jac; fd_log := lg0 |} in
  fd_unknowns (run lg) = fd_unknowns (run [])
  /\ fd_jacobian (run lg) = fd_jacobian (run [])
  /\ fd_log (run lg) = lg ++ fd_log (run []).
Proof.
  cbv zeta. induction k as [|k IH].
  - simpl. rewrite app_nil_r. repeat split.
  - destruct IH as (Hu & Hj & Hl). rewrite !for_loop_S.
    unfold fd_column at 1 3 5 7 9 11. simpl. rewrite Hu, Hj, Hl.
    repeat split. rewrite <- app_assoc. reflexivity.
Qed.

Lemma build_jacobian_prepends (g : Globals) (residual_fct : ResidualFctPt)
  (params : Vector) (jacobian_fct : option JacobianFctPt) (ndof : nat)
  (residuals u : Vector) (lg : list event) :
  let built lg0 :=
    build_jacobian g residual_fct params jacobian_fct ndof residuals u lg0 in
  fd_jacobian (built lg) = fd_jacobian (built [])
  /\ fd_log (built lg) = lg ++ fd_log (built []).
Proof.
  cbv zeta. destruct jacobian_fct as [jf|]; [split; reflexivity|].
  simpl. unfold fd_jacobian_loop.
  destruct (fd_loop_prepends g residual_fct params ndof residuals ndof u
              (zero_matrix ndof) lg) as (_ & Hj & Hl).
  split; assumption.
Qed.

Lemma residual_calls_quiet (f : nat -> Vector) (l : list nat) :
  forallb is_quiet ((fun i => ResidualCall (f i)) <$> l) = true
  /\ count_residual_calls ((fun i => ResidualCall (f i)) <$> l) = length l.
Proof.
  unfold count_residual_calls.
  induction l as [|i l [IH1 IH2]]; [split; reflexivity|].
  rewrite fmap_cons. cbn [forallb List.filter is_residual_call length].
  split; [exact IH1|]. f_equal. exact IH2.
Qed.

(** The events of building a Jacobian: one residual evaluation per
    column, or one call of the Jacobian function. *)
Lemma build_jacobian_events (g : Globals) (residual_fct : ResidualFctPt)
  (params : Vector) (jacobian_fct : option JacobianFctPt) (ndof : nat)
  (residuals u : Vector) :
  let events :=
    fd_log (build_jacobian g residual_fct params jacobian_fct ndof
              residuals u []) in
  forallb is_quiet events = true
  /\ count_residual_calls events
     = match jacobian_fct with
       | None => ndof
       | Some _ => 0
       end.
Proof.
  cbv zeta. destruct jacobian_fct as [jf|]; [split; reflexivity|].
  simpl. unfold fd_jacobian_loop.
  pose proof (fd_jacobian_loop_columns g residual_fct params ndof residuals
                {| fd_unknowns := u;
                   fd_jacobian := zero_matrix ndof;
                   fd_log := [] |}
                ndof (square_zero_matrix ndof) (le_n ndof))
    as H.
  cbv zeta in H. destruct H as (_ & _ & _ & Hlog). rewrite Hlog. simpl.
  destruct (residual_calls_quiet (advanced_point g u) (seq 0 ndof))
    as [Hq Hc].
  rewrite length_seq in Hc. split; assumption.
Qed.

(** ** A pass of the driver that fails the convergence test *)

Lemma after_line_search_log (taken : Z) (res : ls_result) :
  log (iteration_state (after_line_search taken res))
  = ls_log (refs_of_result res).
Proof. destruct res; reflexivity. Qed.

Lemma after_line_search_unknowns (taken : Z) (res : ls_result) :
  unknowns (iteration_state (after_line_search taken res))
  = ls_x (refs_of_result res).
Proof. destruct res; reflexivity. Qed.

Lemma after_line_search_forget (t1 t2 : Z) (res1 res2 : ls_result) :
  forget_ls_log res1 = forget_ls_log res2 ->
  iteration_kind (after_line_search t1 res1)
  = iteration_kind (after_line_search t2 res2)
  /\ ls_x (refs_of_result res1) = ls_x (refs_of_result res2).
Proof.
  destruct res1, res2; simpl; intros H; try discriminate H;
    injection H as; subst; split; congruence.
Qed.

(** A failing pass in terms of what does not depend on the log: the
    Jacobian, the events of building it, and the line search run from an
    empty log. *)
Lemma newton_iteration_failing (g : Globals) (fuel : nat)
  (residual_fct : ResidualFctPt) (params : Vector)
  (jacobian_fct : option JacobianFctPt) (solve : LinearSolve)
  (ndof : nat) (iloop : Z) (s : solver_state) (largest : float) :
  max_element AbsCmp (residual_fct params (unknowns s)) = Some largest ->
  (abs largest <? Tol g)%float = false ->
  let u := unknowns s in
  let residuals := residual_fct params u in
  let taken := incr_unsigned (N_iter_taken s) in
  let built :=
    build_jacobian g residual_fct params jacobian_fct ndof residuals u [] in
  let jacobian := fd_jacobian built in
  let before :=
    log s
    ++ [ResidualCall u]
    ++ (if Doc_Progress g then [InfoIteration iloop residuals u] else [])
    ++ fd_log built
    ++ (if Doc_Progress g then [InfoJacobian jacobian] else [])
    ++ [SolveCall jacobian residuals] in
  let res :=
    newton_iteration g fuel residual_fct params jacobian_fct solve
      ndof iloop s in
  match solve jacobian residuals with
  | None =>
      res = IterStop (Thrown LinearSolverError)
              {| unknowns := u; N_iter_taken := taken; log := before |}
  | Some newton_direction =>
      if Use_step_length_control g
      then
        let res0 :=
          line_search fuel u (merit_at residual_fct params ndof u)
            (merit_gradient ndof jacobian residuals) residual_fct params
            {| ls_newton_dir :=
                 for_loop ndof (fun i d => vset d i (vget d i * -1)%float)
                   newton_direction;
               ls_x := u;
               ls_half_residual_squared :=
                 merit_at residual_fct params ndof u;
               ls_log := [] |}
            (100 * std_max (euclidean_norm ndof u)
                     (double_of_unsigned ndof))%float in
        exists ls,
          res = after_line_search taken ls
          /\ forget_ls_log ls = forget_ls_log res0
          /\ ls_log (refs_of_result ls)
             = before ++ ls_log (refs_of_result res0)
          /\ forallb is_line_search_event (ls_log (refs_of_result res0))
             = true
      else
        res = IterNext
                {| unknowns :=
                     for_loop ndof
                       (fun i v =>
                          vset v i (vget v i - vget newton_direction i)%float)
                       u;
                   N_iter_taken := taken;
                   log := before |}
  end.
Proof.
  intros Hmax Htol u residuals taken built jacobian before res.
  unfold res.
  rewrite (newton_iteration_unfold g fuel residual_fct params jacobian_fct
             solve ndof iloop s largest Hmax Htol).
  cbv zeta. fold u. fold residuals. fold taken.
  match goal with
  | |- context [build_jacobian g residual_fct params jacobian_fct ndof
                  residuals u ?lg2] =>
      destruct (build_jacobian_prepends g residual_fct params jacobian_fct
                  ndof residuals u lg2) as (Hj & Hl);
      cbv zeta in Hj, Hl; fold built in Hj, Hl; fold jacobian in Hj;
      rewrite Hj, Hl
  end.
  assert (Hbefore :
    (((log s ++ [ResidualCall u])
      ++ (if Doc_Progress g then [InfoIteration iloop residuals u] else []))
     ++ fd_log built
     ++ (if Doc_Progress g then [InfoJacobian jacobian] else []))
    ++ [SolveCall jacobian residuals] = before).
  { unfold before. rewrite <- !app_assoc. reflexivity. }
  rewrite <- !app_assoc in Hbefore. rewrite <- !app_assoc. rewrite Hbefore.
  destruct (solve jacobian residuals) as [d|]; [|reflexivity].
  destruct (Use_step_length_control g); [|reflexivity].
  match goal with
  | |- context [after_line_search taken ?ls] =>
      exists ls; split; [reflexivity|]
  end.
  match goal with
  | |- context [line_search fuel u ?m ?gr residual_fct params ?ra ?cap] =>
      destruct (line_search_two_logs fuel u m gr residual_fct params ra
                  {| ls_newton_dir := ls_newton_dir ra;
                     ls_x := ls_x ra;
                     ls_half_residual_squared := ls_half_residual_squared ra;
                     ls_log := [] |}
                  cap eq_refl eq_refl eq_refl)
        as (extra & Hq & Hl1 & Hl2 & Hfg & _)
  end.
  cbv zeta in Hl1, Hl2, Hfg. simpl in Hl1, Hl2, Hfg.
  split; [exact Hfg|]. rewrite Hl2. split; [exact Hl1|exact Hq].
Qed.

Lemma newton_iteration_undefined (g : Globals) (fuel : nat)
  (residual_fct : ResidualFctPt) (params : Vector)
  (jacobian_fct : option JacobianFctPt) (solve : LinearSolve)
  (ndof : nat) (iloop : Z) (s : solver_state) :
  max_element AbsCmp (residual_fct params (unknowns s)) = None ->
  newton_iteration g fuel residual_fct params jacobian_fct solve ndof iloop s
  = IterStop Undefined
      {| unknowns := unknowns s;
         N_iter_taken := N_iter_taken s;
         log := log s ++ [ResidualCall (unknowns s)] |}.
Proof. intros Hmax. unfold newton_iteration. rewrite Hmax. reflexivity. Qed.

Lemma line_search_error_x (fuel : nat) (x_old : Vector) (f_old : float)
  (gradient : Vector) (residual_fct : ResidualFctPt) (params : Vector)
  (r : ls_refs) (stpmax slope : float) (r' : ls_refs) :
  forget_ls_log
    (line_search fuel x_old f_old gradient residual_fct params r stpmax)
  = forget_ls_log (LsRoundoffError slope r') ->
  ls_x r' = ls_x r.
Proof.
  rewrite line_search_unfold. cbv zeta.
  destruct (0 <=? _)%float.
  - simpl. intros [= _ _ Hx _]. symmetry. exact Hx.
  - intros H. exfalso.
    destruct (backtrack fuel _ _ _ _ _ _ _ _) eqn:E; try discriminate H.
    exact (backtrack_no_error _ _ _ _ _ _ _ _ _ _ _ E).
Qed.

(** A pass and the unknowns: their size is kept; they change only when
    the pass completes a Newton step or its line search is still
    running. *)
Lemma newton_iteration_unknowns (g : Globals) (fuel : nat)
  (residual_fct : ResidualFctPt) (params : Vector)
  (jacobian_fct : option JacobianFctPt) (solve : LinearSolve)
  (ndof : nat) (iloop : Z) (s : solver_state) :
  let res :=
    newton_iteration g fuel residual_fct params jacobian_fct solve
      ndof iloop s in
  length (unknowns (iteration_state res)) = length (unknowns s)
  /\ match res with
     | IterReturn s' | IterStop (Thrown _) s' | IterStop Undefined s' =>
         unknowns s' = unknowns s
     | _ => True
     end.
Proof.
  cbv zeta.
  destruct (max_element AbsCmp (residual_fct params (unknowns s)))
    as [largest|] eqn:Hmax;
    [destruct (abs largest <? Tol g)%float eqn:Htol|].
  - rewrite (newton_iteration_converged g fuel residual_fct params
               jacobian_fct solve ndof iloop s largest Hmax Htol).
    split; reflexivity.
  - pose proof (newton_iteration_failing g fuel residual_fct params
                  jacobian_fct solve ndof iloop s largest Hmax Htol) as H.
    cbv zeta in H. destruct (solve _ _) as [d|].
    + destruct (Use_step_length_control g).
      * destruct H as (ls & -> & Hfg & _ & _).
        rewrite after_line_search_unknowns.
        match type of Hfg with
        | _ = forget_ls_log ?res0 => set (res0' := res0) in *
        end.
        assert (Hx : ls_x (refs_of_result ls) = ls_x (refs_of_result res0')).
        { destruct ls, res0'; simpl in Hfg; try discriminate Hfg;
            injection Hfg as; subst; simpl; congruence. }
        split.
        -- rewrite Hx. unfold res0'.
           match goal with
           | |- context [line_search fuel ?xo ?m ?gr _ _ ?ra ?cap] =>
               destruct (line_search_two_logs fuel xo m gr residual_fct
                           params ra ra cap eq_refl eq_refl eq_refl)
                 as (extra & _ & _ & _ & _ & Hlen)
           end.
           exact Hlen.
        -- destruct ls as [how lam r'|slope r'|l r']; simpl; try exact I.
           symmetry in Hfg. unfold res0' in Hfg.
           apply line_search_error_x in Hfg. exact Hfg.
      * rewrite H. simpl. split; [|exact I].
        apply (length_pointwise_loop ndof (fun i a => (a - vget d i)%float)).
    + rewrite H. split; reflexivity.
  - rewrite (newton_iteration_undefined g fuel residual_fct params
               jacobian_fct solve ndof iloop s Hmax).
    split; reflexivity.
Qed.

(** A pass, the counter and the linear solves: when the pass returns, or
    finds the residual vector empty, both stay as they are; in every other
    case the counter is incremented and one linear solve is logged. *)
Lemma newton_iteration_counts (g : Globals) (fuel : nat)
  (residual_fct : ResidualFctPt) (params : Vector)
  (jacobian_fct : option JacobianFctPt) (solve : LinearSolve)
  (ndof : nat) (iloop : Z) (s : solver_state) :
  let res :=
    newton_iteration g fuel residual_fct params jacobian_fct solve
      ndof iloop s in
  let s' := iteration_state res in
  let counted :=
    match iteration_kind res with
    | PassReturns | PassStops Undefined => false
    | _ => true
    end in
  N_iter_taken s'
  = (if counted then incr_unsigned (N_iter_taken s) else N_iter_taken s)
  /\ count_solves (log s')
     = count_solves (log s) + (if counted then 1 else 0).
Proof.
  cbv zeta.
  destruct (max_element AbsCmp (residual_fct params (unknowns s)))
    as [largest|] eqn:Hmax;
    [destruct (abs largest <? Tol g)%float eqn:Htol|].
  - rewrite (newton_iteration_converged g fuel residual_fct params
               jacobian_fct solve ndof iloop s largest Hmax Htol).
    simpl. split; [reflexivity|].
    rewrite !count_solves_app. destruct (Doc_Progress g); simpl;
      unfold count_solves; simpl; lia.
  - pose proof (newton_iteration_failing g fuel residual_fct params
                  jacobian_fct solve ndof iloop s largest Hmax Htol) as H.
    cbv zeta in H.
    pose proof (build_jacobian_events g residual_fct params jacobian_fct ndof
                  (residual_fct params (unknowns s)) (unknowns s)) as Hev.
    cbv zeta in Hev. destruct Hev as (Hquiet & _).
    apply quiet_count_solves in Hquiet.
    match type of H with
    | context [IterStop (Thrown LinearSolverError)
                 {| unknowns := _; N_iter_taken := _; log := ?b |}] =>
        assert (Hbefore : count_solves b = count_solves (log s) + 1)
    end.
    { rewrite !count_solves_app, Hquiet.
      destruct (Doc_Progress g); unfold count_solves; simpl; lia. }
    destruct (solve _ _) as [d|].
    + destruct (Use_step_length_control g).
      * destruct H as (ls & -> & _ & Hlog & Hq).
        rewrite after_line_search_log, Hlog, count_solves_app, Hbefore.
        apply line_search_events_quiet, quiet_count_solves in Hq.
        rewrite Hq. destruct ls; simpl; split; reflexivity || lia.
      * rewrite H. simpl. split; [reflexivity|exact Hbefore].
    + rewrite H. simpl. split; [reflexivity|exact Hbefore].
  - rewrite (newton_iteration_undefined g fuel residual_fct params
               jacobian_fct solve ndof iloop s Hmax).
    simpl. split; [reflexivity|].
    rewrite count_solves_app. unfold count_solves. simpl. lia.
Qed.

(** Two passes from the same unknowns, under configurations that differ
    at most in [Doc_Progress] and [Max_iter]: they end the same way with
    the same unknowns, and add the same events apart from the text for
    [oomph_info]. *)
Lemma newton_iteration_two_runs (g1 g2 : Globals) (fuel : nat)
  (residual_fct : ResidualFctPt) (params : Vector)
  (jacobian_fct : option JacobianFctPt) (solve : LinearSolve)
  (ndof : nat) (iloop1 iloop2 : Z) (s1 s2 : solver_state) :
  FD_step g1 = FD_step g2 ->
  Tol g1 = Tol g2 ->
  Use_step_length_control g1 = Use_step_length_control g2 ->
  unknowns s1 = unknowns s2 ->
  let res1 :=
    newton_iteration g1 fuel residual_fct params jacobian_fct solve
      ndof iloop1 s1 in
  let res2 :=
    newton_iteration g2 fuel residual_fct params jacobian_fct solve
      ndof iloop2 s2 in
  iteration_kind res1 = iteration_kind res2
  /\ unknowns (iteration_state res1) = unknowns (iteration_state res2)
  /\ exists extra,
       without_info (log (iteration_state res1))
       = without_info (log s1) ++ extra
       /\ without_info (log (iteration_state res2))
          = without_info (log s2) ++ extra.
Proof.
  intros Hstep Htols Hctl Hu. cbv zeta.
  destruct (max_element AbsCmp (residual_fct params (unknowns s1)))
    as [largest|] eqn:Hmax1;
    [destruct (abs largest <? Tol g1)%float eqn:Htol1|].
  - assert (Hmax2 := Hmax1). assert (Htol2 := Htol1).
    rewrite Hu in Hmax2. rewrite Htols in Htol2.
    rewrite (newton_iteration_converged g1 fuel residual_fct params
               jacobian_fct solve ndof iloop1 s1 largest Hmax1 Htol1).
    rewrite (newton_iteration_converged g2 fuel residual_fct params
               jacobian_fct solve ndof iloop2 s2 largest Hmax2 Htol2).
    simpl. split; [reflexivity|]. split; [exact Hu|].
    exists [ResidualCall (unknowns s1)].
    rewrite !without_info_app, <- Hu.
    destruct (Doc_Progress g1), (Doc_Progress g2); simpl;
      rewrite !app_nil_r; split; reflexivity.
  - assert (Hmax2 := Hmax1). assert (Htol2 := Htol1).
    rewrite Hu in Hmax2. rewrite Htols in Htol2.
    pose proof (newton_iteration_failing g1 fuel residual_fct params
                  jacobian_fct solve ndof iloop1 s1 largest Hmax1 Htol1)
      as H1.
    pose proof (newton_iteration_failing g2 fuel residual_fct params
                  jacobian_fct solve ndof iloop2 s2 largest Hmax2 Htol2)
      as H2.
    cbv zeta in H1, H2. rewrite <- Hu, <- Hctl in H2.
    rewrite <- (build_jacobian_same_step g1 g2 residual_fct params
                  jacobian_fct ndof (residual_fct params (unknowns s1))
                  (unknowns s1) [] Hstep) in H2.
    pose proof (build_jacobian_events g1 residual_fct params jacobian_fct
                  ndof (residual_fct params (unknowns s1)) (unknowns s1))
      as Hev.
    cbv zeta in Hev. destruct Hev as (Hquiet & _).
    apply quiet_without_info in Hquiet.
    set (built :=
           build_jacobian g1 residual_fct params jacobian_fct ndof
             (residual_fct params (unknowns s1)) (unknowns s1) []) in *.
    set (common :=
           [ResidualCall (unknowns s1)] ++ fd_log built
           ++ [SolveCall (fd_jacobian built)
                 (residual_fct params (unknowns s1))]).
    assert (Hb1 : forall lg0 k,
      without_info
        (lg0
         ++ [ResidualCall (unknowns s1)]
         ++ (if Doc_Progress g1
             then [InfoIteration k (residual_fct params (unknowns s1))
                     (unknowns s1)]
             else [])
         ++ fd_log built
         ++ (if Doc_Progress g1 then [InfoJacobian (fd_jacobian built)] else [])
         ++ [SolveCall (fd_jacobian built)
               (residual_fct params (unknowns s1))])
      = without_info lg0 ++ common).
    { intros lg0 k. unfold common. rewrite !without_info_app, Hquiet.
      destruct (Doc_Progress g1); reflexivity. }
    assert (Hb2 : forall lg0 k,
      without_info
        (lg0
         ++ [ResidualCall (unknowns s1)]
         ++ (if Doc_Progress g2
             then [InfoIteration k (residual_fct params (unknowns s1))
                     (unknowns s1)]
             else [])
         ++ fd_log built
         ++ (if Doc_Progress g2 then [InfoJacobian (fd_jacobian built)] else [])
         ++ [SolveCall (fd_jacobian built)
               (residual_fct params (unknowns s1))])
      = without_info lg0 ++ common).
    { intros lg0 k. unfold common. rewrite !without_info_app, Hquiet.
      destruct (Doc_Progress g2); reflexivity. }
    destruct (solve _ _) as [d|].
    + destruct (Use_step_length_control g1).
      * destruct H1 as (ls1 & -> & Hfg1 & Hlog1 & Hq).
        destruct H2 as (ls2 & -> & Hfg2 & Hlog2 & _).
        rewrite <- Hfg2 in Hfg1.
        destruct (after_line_search_forget
                    (incr_unsigned (N_iter_taken s1))
                    (incr_unsigned (N_iter_taken s2)) ls1 ls2 Hfg1)
          as (Hkind & Hx).
        split; [exact Hkind|].
        rewrite !after_line_search_unknowns, !after_line_search_log.
        split; [exact Hx|].
        match type of Hq with
        | forallb _ ?ev = true => set (events := ev) in *
        end.
        apply line_search_events_quiet, quiet_without_info in Hq.
        exists (common ++ events).
        rewrite Hlog1, Hlog2, !(without_info_app _ events), Hq.
        rewrite !(app_assoc _ common events).
        split; (f_equal; [apply Hb1 || apply Hb2]).
      * rewrite H1, H2. simpl. split; [reflexivity|]. split; [reflexivity|].
        exists common. split; [apply Hb1|apply Hb2].
    + rewrite H1, H2. simpl. split; [reflexivity|]. split; [reflexivity|].
      exists common. split; [apply Hb1|apply Hb2].
  - assert (Hmax2 := Hmax1). rewrite Hu in Hmax2.
    rewrite (newton_iteration_undefined g1 fuel residual_fct params
               jacobian_fct solve ndof iloop1 s1 Hmax1).
    rewrite (newton_iteration_undefined g2 fuel residual_fct params
               jacobian_fct solve ndof iloop2 s2 Hmax2).
    simpl. split; [reflexivity|]. split; [exact Hu|].
    exists [ResidualCall (unknowns s1)].
    rewrite !without_info_app, <- Hu. split; reflexivity.
Qed.

(** A pass that returns passed the convergence test, at the unknowns it
    leaves, which it has just evaluated. *)
Lemma newton_iteration_return (g : Globals) (fuel : nat)
  (residual_fct : ResidualFctPt) (params : Vector)
  (jacobian_fct : option JacobianFctPt) (solve : LinearSolve)
  (ndof : nat) (iloop : Z) (s s' : solver_state) :
  newton_iteration g fuel residual_fct params jacobian_fct solve ndof iloop s
  = IterReturn s' ->
  exists largest info,
    max_element AbsCmp (residual_fct params (unknowns s')) = Some largest
    /\ (abs largest <? Tol g)%float = true
    /\ log s' = log s ++ [ResidualCall (unknowns s')] ++ info
    /\ forallb is_info info = true.
Proof.
  destruct (max_element AbsCmp (residual_fct params (unknowns s)))
    as [largest|] eqn:Hmax;
    [destruct (abs largest <? Tol g)%float eqn:Htol|].
  - rewrite (newton_iteration_converged g fuel residual_fct params
               jacobian_fct solve ndof iloop s largest Hmax Htol).
    intros [= <-]. simpl.
    exists largest,
      (if Doc_Progress g
       then [InfoIteration iloop (residual_fct params (unknowns s))
               (unknowns s)]
       else []).
    split; [exact Hmax|]. split; [exact Htol|].
    split; [rewrite <- app_assoc; reflexivity|].
    destruct (Doc_Progress g); reflexivity.
  - pose proof (newton_iteration_failing g fuel residual_fct params
                  jacobian_fct solve ndof iloop s largest Hmax Htol) as H.
    cbv zeta in H. destruct (solve _ _) as [d|].
    + destruct (Use_step_length_control g).
      * destruct H as (ls & -> & _). destruct ls; discriminate.
      * rewrite H. discriminate.
    + rewrite H. discriminate.
  - rewrite (newton_iteration_undefined g fuel residual_fct params
               jacobian_fct solve ndof iloop s Hmax).
    discriminate.
Qed.

(** A pass after which the loop goes on failed the convergence test. *)
Lemma newton_iteration_next_fails (g : Globals) (fuel : nat)
  (residual_fct : ResidualFctPt) (params : Vector)
  (jacobian_fct : option JacobianFctPt) (solve : LinearSolve)
  (ndof : nat) (iloop : Z) (s s' : solver_state) :
  newton_iteration g fuel residual_fct params jacobian_fct solve ndof iloop s
  = IterNext s' ->
  test_fails g residual_fct params (unknowns s).
Proof.
  destruct (max_element AbsCmp (residual_fct params (unknowns s)))
    as [largest|] eqn:Hmax;
    [destruct (abs largest <? Tol g)%float eqn:Htol|].
  - rewrite (newton_iteration_converged g fuel residual_fct params
               jacobian_fct solve ndof iloop s largest Hmax Htol).
    discriminate.
  - intros _. exists (abs largest). unfold max_res. rewrite Hmax.
    split; [reflexivity|exact Htol].
  - rewrite (newton_iteration_undefined g fuel residual_fct params
               jacobian_fct solve ndof iloop s Hmax).
    discriminate.
Qed.

(** ** The driver's loop *)

Lemma newton_loop_S (g : Globals) (fuel : nat)
  (residual_fct : ResidualFctPt) (params : Vector)
  (jacobian_fct : option JacobianFctPt) (solve : LinearSolve)
  (ndof todo : nat) (iloop : Z) (s : solver_state) :
  newton_loop g fuel residual_fct params jacobian_fct solve ndof
    (S todo) iloop s
  = match
      newton_iteration g fuel residual_fct params jacobian_fct solve
        ndof iloop s
    with
    | IterReturn s' => (Returned, s')
    | IterNext s' =>
        newton_loop g fuel residual_fct params jacobian_fct solve ndof
          todo (incr_unsigned iloop) s'
    | IterStop o s' => (o, s')
    end.
Proof. reflexivity. Qed.

Lemma newton_loop_size (g : Globals) (fuel : nat)
  (residual_fct : ResidualFctPt) (params : Vector)
  (jacobian_fct : option JacobianFctPt) (solve : LinearSolve)
  (ndof todo : nat) (iloop : Z) (s : solver_state) :
  length
    (unknowns
       (snd (newton_loop g fuel residual_fct params jacobian_fct solve ndof
               todo iloop s)))
  = length (unknowns s).
Proof.
  revert iloop s. induction todo as [|todo IH]; intros iloop s;
    [reflexivity|].
  rewrite newton_loop_S.
  pose proof (newton_iteration_unknowns g fuel residual_fct params
                jacobian_fct solve ndof iloop s) as H.
  cbv zeta in H. destruct H as (Hlen & _).
  destruct (newton_iteration g fuel residual_fct params jacobian_fct solve
              ndof iloop s) as [s1|s1|o s1]; simpl in Hlen |- *;
    [exact Hlen|rewrite IH; exact Hlen|exact Hlen].
Qed.

Lemma newton_loop_counts (g : Globals) (fuel : nat)
  (residual_fct : ResidualFctPt) (params : Vector)
  (jacobian_fct : option JacobianFctPt) (solve : LinearSolve)
  (ndof todo : nat) (iloop : Z) (s : solver_state) :
  let res :=
    newton_loop g fuel residual_fct params jacobian_fct solve ndof
      todo iloop s in
  exists k,
    k <= todo
    /\ N_iter_taken (snd res) = Nat.iter k incr_unsigned (N_iter_taken s)
    /\ count_solves (log (snd res)) = count_solves (log s) + k.
Proof.
  revert iloop s. induction todo as [|todo IH]; intros iloop s; cbv zeta.
  - exists 0. simpl. repeat split; lia.
  - rewrite newton_loop_S.
    pose proof (newton_iteration_counts g fuel residual_fct params
                  jacobian_fct solve ndof iloop s) as H.
    cbv zeta in H. destruct H as (HN & Hc).
    destruct (newton_iteration g fuel residual_fct params jacobian_fct solve
                ndof iloop s) as [s1|s1|o s1]; simpl in HN, Hc |- *.
    + exists 0. simpl. repeat split; lia || assumption.
    + destruct (IH (incr_unsigned iloop) s1) as (k & Hk & HN1 & Hc1).
      exists (S k). split; [lia|].
      rewrite Nat.iter_succ_r, <- HN. split; [exact HN1|]. lia.
    + destruct o as [|e| |]; simpl in HN, Hc.
      * exists 1. simpl. repeat split; lia || assumption.
      * exists 1. simpl. repeat split; lia || assumption.
      * exists 1. simpl. repeat split; lia || assumption.
      * exists 0. simpl. repeat split; lia || assumption.
Qed.

Lemma newton_loop_two_runs (g1 g2 : Globals) (fuel : nat)
  (residual_fct : ResidualFctPt) (params : Vector)
  (jacobian_fct : option JacobianFctPt) (solve : LinearSolve)
  (ndof todo : nat) (iloop1 iloop2 : Z) (s1 s2 : solver_state) :
  same_but_doc g1 g2 ->
  unknowns s1 = unknowns s2 ->
  N_iter_taken s1 = N_iter_taken s2 ->
  without_info (log s1) = without_info (log s2) ->
  let res1 :=
    newton_loop g1 fuel residual_fct params jacobian_fct solve ndof
      todo iloop1 s1 in
  let res2 :=
    newton_loop g2 fuel residual_fct params jacobian_fct solve ndof
      todo iloop2 s2 in
  fst res1 = fst res2
  /\ unknowns (snd res1) = unknowns (snd res2)
  /\ N_iter_taken (snd res1) = N_iter_taken (snd res2)
  /\ without_info (log (snd res1)) = without_info (log (snd res2)).
Proof.
  intros (Hmax & Hstep & Htol & Hctl). revert iloop1 iloop2 s1 s2.
  induction todo as [|todo IH]; intros iloop1 iloop2 s1 s2 Hu HN Hlog;
    cbv zeta.
  - simpl. rewrite Hmax. repeat split; assumption.
  - rewrite !newton_loop_S.
    pose proof (newton_iteration_two_runs g1 g2 fuel residual_fct params
                  jacobian_fct solve ndof iloop1 iloop2 s1 s2 Hstep Htol Hctl
                  Hu) as H.
    pose proof (newton_iteration_counts g1 fuel residual_fct params
                  jacobian_fct solve ndof iloop1 s1) as H1.
    pose proof (newton_iteration_counts g2 fuel residual_fct params
                  jacobian_fct solve ndof iloop2 s2) as H2.
    cbv zeta in H, H1, H2.
    destruct H as (Hkind & Hu' & extra & Hl1 & Hl2).
    destruct H1 as (HN1 & _). destruct H2 as (HN2 & _).
    rewrite <- Hkind, <- HN in HN2. rewrite <- HN2 in HN1.
    rewrite Hlog, <- Hl2 in Hl1.
    destruct (newton_iteration g1 fuel residual_fct params jacobian_fct solve
                ndof iloop1 s1) as [a|a|o a],
      (newton_iteration g2 fuel residual_fct params jacobian_fct solve
         ndof iloop2 s2) as [b|b|o' b];
      simpl in Hkind, Hu', HN1, Hl1 |- *; try discriminate Hkind.
    + repeat split; assumption.
    + apply IH; assumption.
    + injection Hkind as <-. repeat split; assumption.
Qed.

(** Once a pass completes its step without changing the unknowns, every
    later pass does the same. *)
Lemma newton_loop_no_progress (g : Globals) (fuel : nat)
  (residual_fct : ResidualFctPt) (params : Vector)
  (jacobian_fct : option JacobianFctPt) (solve : LinearSolve)
  (ndof todo : nat) (iloop iloop' : Z) (s s1 : solver_state) :
  newton_iteration g fuel residual_fct params jacobian_fct solve ndof iloop s
  = IterNext s1 ->
  unknowns s1 = unknowns s ->
  let res :=
    newton_loop g fuel residual_fct params jacobian_fct solve ndof
      todo iloop' s1 in
  fst res = Thrown (ConvergenceFailure (Max_iter g))
  /\ unknowns (snd res) = unknowns s.
Proof.
  revert iloop iloop' s s1.
  induction todo as [|todo IH]; intros iloop iloop' s s1 Hstep Hsame;
    cbv zeta.
  - simpl. split; [reflexivity|exact Hsame].
  - rewrite newton_loop_S.
    pose proof (newton_iteration_two_runs g g fuel residual_fct params
                  jacobian_fct solve ndof iloop iloop' s s1 eq_refl eq_refl
                  eq_refl (eq_sym Hsame)) as H.
    cbv zeta in H. rewrite Hstep in H. destruct H as (Hkind & Hu & _).
    destruct (newton_iteration g fuel residual_fct params jacobian_fct solve
                ndof iloop' s1) as [s2|s2|o s2] eqn:Hstep1;
      simpl in Hkind, Hu; try discriminate Hkind.
    destruct (IH iloop' (incr_unsigned iloop') s1 s2 Hstep1 (eq_sym Hu))
      as (Hout & Hun).
    split; [exact Hout|]. rewrite Hun. exact Hsame.
Qed.

(** A call that returns: the pass that returned. *)
Lemma newton_loop_returned (g : Globals) (fuel : nat)
  (residual_fct : ResidualFctPt) (params : Vector)
  (jacobian_fct : option JacobianFctPt) (solve : LinearSolve)
  (ndof todo : nat) (iloop : Z) (s : solver_state) :
  let res :=
    newton_loop g fuel residual_fct params jacobian_fct solve ndof
      todo iloop s in
  fst res = Returned ->
  exists largest lg info,
    max_element AbsCmp (residual_fct params (unknowns (snd res)))
    = Some largest
    /\ (abs largest <? Tol g)%float = true
    /\ log (snd res) = lg ++ [ResidualCall (unknowns (snd res))] ++ info
    /\ forallb is_info info = true.
Proof.
  revert iloop s. induction todo as [|todo IH]; intros iloop s; cbv zeta;
    [discriminate|].
  rewrite newton_loop_S.
  destruct (newton_iteration g fuel residual_fct params jacobian_fct solve
              ndof iloop s) as [s1|s1|o s1] eqn:Hstep.
  - intros _. simpl.
    destruct (newton_iteration_return _ _ _ _ _ _ _ _ _ _ Hstep)
      as (largest & info & Hmax & Htol & Hlog & Hinfo).
    exists largest, (log s), info. repeat split; assumption.
  - apply IH.
  - simpl. intros ->.
    destruct (max_element AbsCmp (residual_fct params (unknowns s)))
      as [largest|] eqn:Hmax;
      [destruct (abs largest <? Tol g)%float eqn:Htol|].
    + rewrite (newton_iteration_converged g fuel residual_fct params
                 jacobian_fct solve ndof iloop s largest Hmax Htol) in Hstep.
      discriminate Hstep.
    + pose proof (newton_iteration_failing g fuel residual_fct params
                    jacobian_fct solve ndof iloop s largest Hmax Htol) as H.
      cbv zeta in H. rewrite Hstep in H. destruct (solve _ _) as [d|].
      * destruct (Use_step_length_control g).
        -- destruct H as (ls & H & _). destruct ls; discriminate H.
        -- discriminate H.
      * discriminate H.
    + rewrite (newton_iteration_undefined g fuel residual_fct params
                 jacobian_fct solve ndof iloop s Hmax) in Hstep.
      discriminate Hstep.
Qed.

(** A call that ends by an error other than the convergence failure: the
    passes before the one that raised it all completed their step. *)
Lemma newton_loop_thrown (g : Globals) (fuel : nat)
  (residual_fct : ResidualFctPt) (params : Vector)
  (jacobian_fct : option JacobianFctPt) (solve : LinearSolve)
  (ndof todo : nat) (iloop : Z) (s : solver_state) :
  let res :=
    newton_loop g fuel residual_fct params jacobian_fct solve ndof
      todo iloop s in
  fst res = Thrown LinearSolverError
  \/ (exists slope, fst res = Thrown (RoundoffError slope)) ->
  exists k s0,
    k < todo
    /\ failed_passes g fuel residual_fct params jacobian_fct solve ndof
         k iloop s s0
    /\ unknowns (snd res) = unknowns s0.
Proof.
  revert iloop s. induction todo as [|todo IH]; intros iloop s; cbv zeta.
  - simpl. intros [H|[slope H]]; discriminate H.
  - rewrite newton_loop_S.
    pose proof (newton_iteration_unknowns g fuel residual_fct params
                  jacobian_fct solve ndof iloop s) as Hun.
    cbv zeta in Hun. destruct Hun as (_ & Hun).
    destruct (newton_iteration g fuel residual_fct params jacobian_fct solve
                ndof iloop s) as [s1|s1|o s1] eqn:Hstep.
    + simpl. intros [H|[slope H]]; discriminate H.
    + intros Hthrown.
      destruct (IH (incr_unsigned iloop) s1 Hthrown) as (k & s0 & Hk & Hp & Hu).
      exists (S k), s0. split; [lia|]. split; [|exact Hu].
      eapply failed_passes_S; [|exact Hstep|exact Hp].
      exact (newton_iteration_next_fails _ _ _ _ _ _ _ _ _ _ Hstep).
    + simpl. intros Hthrown. exists 0, s. split; [lia|].
      split; [apply failed_passes_O|].
      destruct Hthrown as [->|[slope ->]]; exact Hun.
Qed.

(** ** What a call of the driver guarantees *)

(** The absolute value of what is not a number is below nothing. *)
Lemma nan_abs_ltb (a t : float) :
  is_nan a = true -> (abs a <? t)%float = false.
Proof.
  unfold is_nan. rewrite FloatAxioms.eqb_spec, ltb_spec, abs_spec.
  destruct (Prim2SF a) as [sa|sa| |sa ma ea] eqn:Ea; intros Hnan.
  - rewrite SFeqb_refl in Hnan by discriminate. discriminate Hnan.
  - rewrite SFeqb_refl in Hnan by discriminate. discriminate Hnan.
  - reflexivity.
  - rewrite SFeqb_refl in Hnan by discriminate. discriminate Hnan.
Qed.

(** A scan that starts from what is not a number keeps it. *)
Lemma max_element_from_nan (a : float) (rest : list float) :
  is_nan a = true -> max_element_from AbsCmp a rest = a.
Proof.
  intros Hnan. induction rest as [|y rest IH]; [reflexivity|].
  cbn [max_element_from]. change (AbsCmp a y) with (abs a <? abs y)%float.
  rewrite (nan_abs_ltb a (abs y) Hnan). exact IH.
Qed.

(** X2.  When the driver returns, the first component of the residual at
    the returned unknowns is below [Tol] in absolute value, and every
    component is below [Tol] in absolute value or is not a number.  The
    comparison of line 111 passes over a later component that is not a
    number, so such a component does not prevent the return; a first
    component that is not a number is kept as the largest, and with it
    the test of line 128 fails. *)
Theorem X2_returned_residuals_below_tolerance (g : Globals) (fuel : nat)
  (residual_fct : ResidualFctPt) (params u0 : Vector)
  (jacobian_fct : option JacobianFctPt) (solve : LinearSolve) :
  let res :=
    black_box_fd_newton_solve g fuel residual_fct params u0
      jacobian_fct solve in
  let residuals := residual_fct params (unknowns (snd res)) in
  fst res = Returned ->
  0 < length residuals
  /\ (abs (vget residuals 0) <? Tol g)%float = true
  /\ forall i, i < length residuals ->
       (abs (vget residuals i) <? Tol g)%float = true
       \/ is_nan (vget residuals i) = true.
Proof.
  intros res residuals Hret.
  destruct (newton_loop_returned g fuel residual_fct params jacobian_fct
              solve (length u0) (Z.to_nat (Max_iter g)) 0
              {| unknowns := u0; N_iter_taken := 0; log := [] |} Hret)
    as (largest & lg & info & Hmax & Htol & _).
  fold (black_box_fd_newton_solve g fuel residual_fct params u0
          jacobian_fct solve) in Hmax.
  fold res in Hmax. fold residuals in Hmax.
  destruct (max_element_largest _ _ Hmax) as (_ & Hall).
  assert (Hcomponents :
    forall i, i < length residuals ->
      (abs (vget residuals i) <? Tol g)%float = true
      \/ is_nan (vget residuals i) = true).
  { intros i Hi. apply (abs_below_bound _ (abs largest)); [|exact Htol].
    apply Hall. apply (list_elem_of_lookup_2 _ i).
    apply lookup_vget. exact Hi. }
  destruct residuals as [|a rest] eqn:Eres; [discriminate Hmax|].
  split; [simpl; lia|]. split; [|exact Hcomponents].
  destruct (Hcomponents 0 (Nat.lt_0_succ _)) as [Hlt|Hnan]; [exact Hlt|].
  exfalso. change (vget (a :: rest) 0) with a in Hnan.
  simpl in Hmax. injection Hmax as <-.
  rewrite (max_element_from_nan a rest Hnan) in Htol.
  rewrite (nan_abs_ltb a (Tol g) Hnan) in Htol. discriminate Htol.
Qed.

Lemma X2_returned_residuals_below_tolerance_witness :
  fst (black_box_fd_newton_solve default_globals 3 residual_with_nan []
         [0%float; 0%float] None solve_1x1)
  = Returned
  /\ (abs (vget (residual_with_nan [] [0%float; 0%float]) 0) <? 1.0e-8)%float
     = true
  /\ is_nan (vget (residual_with_nan [] [0%float; 0%float]) 1) = true.
Proof.
  pose proof (X2_returned_residuals_below_tolerance default_globals 3
                residual_with_nan [] [0%float; 0%float] None solve_1x1
                eq_refl) as (_ & Hfirst & _).
  split; [reflexivity|]. split; [exact Hfirst|reflexivity].
Defined.

(** X3.  After a call, whatever its outcome, [N_iter_taken] is the number
    of linear solves the call has made, and it is at most [Max_iter]. *)
Theorem X3_counter_counts_linear_solves (g : Globals) (fuel : nat)
  (residual_fct : ResidualFctPt) (params u0 : Vector)
  (jacobian_fct : option JacobianFctPt) (solve : LinearSolve) :
  (0 <= Max_iter g < 2 ^ 32)%Z ->
  let res :=
    black_box_fd_newton_solve g fuel residual_fct params u0
      jacobian_fct solve in
  N_iter_taken (snd res) = Z.of_nat (count_solves (log (snd res)))
  /\ (0 <= N_iter_taken (snd res) <= Max_iter g)%Z.
Proof.
  intros Hrange res.
  destruct (newton_loop_counts g fuel residual_fct params jacobian_fct solve
              (length u0) (Z.to_nat (Max_iter g)) 0
              {| unknowns := u0; N_iter_taken := 0; log := [] |})
    as (k & Hk & HN & Hc).
  fold (black_box_fd_newton_solve g fuel residual_fct params u0
          jacobian_fct solve) in HN, Hc.
  fold res in HN, Hc. simpl in HN, Hc.
  rewrite iter_incr_unsigned in HN by lia.
  rewrite Hc, HN. split; lia.
Qed.

Lemma X3_counter_counts_linear_solves_witness :
  N_iter_taken
    (snd (black_box_fd_newton_solve default_globals 3 residual_identity []
            [5%float] None solve_1x1))
  = 2%Z.
Proof.
  assert (Hrange : (0 <= Max_iter default_globals < 2 ^ 32)%Z).
  { split; [discriminate|reflexivity]. }
  pose proof (X3_counter_counts_linear_solves default_globals 3
                residual_identity [] [5%float] None solve_1x1 Hrange) as H.
  cbv zeta in H. destruct H as (H & _). rewrite H. reflexivity.
Defined.

(** X4.  A call never changes the size of the unknowns vector, whatever
    its outcome. *)
Theorem X4_size_of_unknowns_kept (g : Globals) (fuel : nat)
  (residual_fct : ResidualFctPt) (params u0 : Vector)
  (jacobian_fct : option JacobianFctPt) (solve : LinearSolve) :
  length
    (unknowns
       (snd (black_box_fd_newton_solve g fuel residual_fct params u0
               jacobian_fct solve)))
  = length u0.
Proof.
  unfold black_box_fd_newton_solve. rewrite newton_loop_size. reflexivity.
Qed.

(** X5.  When a call ends with the error of the linear solver or with the
    round-off error of the line search, the unknowns are the iterate
    reached by the Newton steps completed before the failing pass: the
    failing pass leaves in them neither a finite-difference perturbation
    nor a trial point.  If the first pass fails, they are the caller's
    values. *)
Theorem X5_unknowns_when_an_error_leaves (g : Globals) (fuel : nat)
  (residual_fct : ResidualFctPt) (params u0 : Vector)
  (jacobian_fct : option JacobianFctPt) (solve : LinearSolve) :
  let res :=
    black_box_fd_newton_solve g fuel residual_fct params u0
      jacobian_fct solve in
  fst res = Thrown LinearSolverError
  \/ (exists slope, fst res = Thrown (RoundoffError slope)) ->
  exists k s0,
    k < Z.to_nat (Max_iter g)
    /\ failed_passes g fuel residual_fct params jacobian_fct solve
         (length u0) k 0
         {| unknowns := u0; N_iter_taken := 0; log := [] |} s0
    /\ unknowns (snd res) = unknowns s0
    /\ (k = 0 -> unknowns (snd res) = u0).
Proof.
  intros res Hthrown.
  destruct (newton_loop_thrown g fuel residual_fct params jacobian_fct solve
              (length u0) (Z.to_nat (Max_iter g)) 0
              {| unknowns := u0; N_iter_taken := 0; log := [] |} Hthrown)
    as (k & s0 & Hk & Hp & Hu).
  exists k, s0. repeat split; try assumption.
  intros ->. inversion Hp; subst. exact Hu.
Qed.

Lemma X5_unknowns_when_an_error_leaves_witness :
  exists k s0,
    k < 20
    /\ failed_passes globals_step_control 3 residual_flat []
         (Some jacobian_flat) solve_1x1 1 k 0
         {| unknowns := [0%float]; N_iter_taken := 0; log := [] |} s0
    /\ [0%float] = unknowns s0
    /\ (k = 0 -> [0%float] = [0%float]).
Proof.
  exact (X5_unknowns_when_an_error_leaves globals_step_control 3
           residual_flat [] [0%float] (Some jacobian_flat) solve_1x1
           (or_intror (ex_intro _ 0%float eq_refl))).
Defined.

(** X6.  [Doc_Progress] only adds text: two calls under configurations
    that differ at most in [Doc_Progress] have the same outcome, the same
    unknowns and the same [N_iter_taken], and make the same residual,
    Jacobian and solver calls and issue the same warnings in the same
    order. *)
Theorem X6_documenting_progress_changes_nothing (g1 g2 : Globals)
  (fuel : nat) (residual_fct : ResidualFctPt) (params u0 : Vector)
  (jacobian_fct : option JacobianFctPt) (solve : LinearSolve) :
  same_but_doc g1 g2 ->
  let res1 :=
    black_box_fd_newton_solve g1 fuel residual_fct params u0
      jacobian_fct solve in
  let res2 :=
    black_box_fd_newton_solve g2 fuel residual_fct params u0
      jacobian_fct solve in
  fst res1 = fst res2
  /\ unknowns (snd res1) = unknowns (snd res2)
  /\ N_iter_taken (snd res1) = N_iter_taken (snd res2)
  /\ without_info (log (snd res1)) = without_info (log (snd res2)).
Proof.
  intros Hsame. cbv zeta. unfold black_box_fd_newton_solve.
  destruct Hsame as (Hmax & Hrest). rewrite <- Hmax.
  apply newton_loop_two_runs; try reflexivity.
  split; [exact Hmax|exact Hrest].
Qed.

Lemma X6_documenting_progress_changes_nothing_witness :
  without_info
    (log (snd (black_box_fd_newton_solve globals_documented 3
                 residual_identity [] [5%float] (Some jacobian_one)
                 solve_1x1)))
  = [ResidualCall [5%float]; JacobianCall [5%float];
     SolveCall [[1%float]] [5%float]; ResidualCall [0%float]].
Proof.
  assert (Hsame : same_but_doc globals_documented default_globals).
  { repeat split. }
  pose proof (X6_documenting_progress_changes_nothing globals_documented
                default_globals 3 residual_identity [] [5%float]
                (Some jacobian_one) solve_1x1 Hsame) as H.
  cbv zeta in H. destruct H as (_ & _ & _ & H). rewrite H. reflexivity.
Defined.

(** X7.  Once a pass of the driver completes its Newton step without
    changing the unknowns (as it does when the line search leaves by its
    stagnation exit, or when the direction is zero), no later pass can
    converge: the loop ends with the convergence failure and the same
    unknowns. *)
Theorem X7_no_progress_ends_in_failure (g : Globals) (fuel : nat)
  (residual_fct : ResidualFctPt) (params : Vector)
  (jacobian_fct : option JacobianFctPt) (solve : LinearSolve)
  (ndof : nat) (iloop : Z) (s s1 : solver_state) (todo : nat) :
  newton_iteration g fuel residual_fct params jacobian_fct solve ndof iloop s
  = IterNext s1 ->
  unknowns s1 = unknowns s ->
  let res :=
    newton_loop g fuel residual_fct params jacobian_fct solve ndof
      (S todo) iloop s in
  fst res = Thrown (ConvergenceFailure (Max_iter g))
  /\ unknowns (snd res) = unknowns s.
Proof.
  intros Hstep Hsame. cbv zeta. rewrite newton_loop_S, Hstep.
  exact (newton_loop_no_progress g fuel residual_fct params jacobian_fct
           solve ndof todo iloop (incr_unsigned iloop) s s1 Hstep Hsame).
Qed.

Lemma X7_no_progress_ends_in_failure_witness :
  fst (black_box_fd_newton_solve globals_tight 3 residual_identity []
         [0x1p-60%float] (Some jacobian_one) solve_1x1)
  = Thrown (ConvergenceFailure 20).
Proof.
  exact (proj1
           (X7_no_progress_ends_in_failure globals_tight 3 residual_identity
              [] (Some jacobian_one) solve_1x1 1 0
              {| unknowns := [0x1p-60%float]; N_iter_taken := 0; log := [] |}
              {| unknowns := [0x1p-60%float];
                 N_iter_taken := 1;
                 log :=
                   [ResidualCall [0x1p-60%float];
                    JacobianCall [0x1p-60%float];
                    SolveCall [[1%float]] [0x1p-60%float];
                    ResidualCall [0%float];
                    WarningIssued
                      "Warning: Line search converged on x only!"] |}
              19 eq_refl eq_refl)).
Defined.

(** ** The warning of the line search seen from the driver *)

Lemma has_warning_app (a b : list event) :
  has_warning (a ++ b) = has_warning a || has_warning b.
Proof. apply existsb_app. Qed.

Lemma residual_calls_no_warning (f : nat -> Vector) (l : list nat) :
  has_warning ((fun i => ResidualCall (f i)) <$> l) = false.
Proof. induction l as [|i l IH]; [reflexivity|exact IH]. Qed.

Lemma build_jacobian_no_warning (g : Globals) (residual_fct : ResidualFctPt)
  (params : Vector) (jacobian_fct : option JacobianFctPt) (ndof : nat)
  (residuals u : Vector) :
  has_warning
    (fd_log (build_jacobian g residual_fct params jacobian_fct ndof
               residuals u []))
  = false.
Proof.
  destruct jacobian_fct as [jf|]; [reflexivity|].
  simpl. unfold fd_jacobian_loop.
  pose proof (fd_jacobian_loop_columns g residual_fct params ndof residuals
                {| fd_unknowns := u;
                   fd_jacobian := zero_matrix ndof;
                   fd_log := [] |}
                ndof (square_zero_matrix ndof) (le_n ndof))
    as H.
  cbv zeta in H. destruct H as (_ & _ & _ & Hlog). rewrite Hlog. simpl.
  apply residual_calls_no_warning.
Qed.

(** The events of a failing pass up to the linear solve hold no
    warning. *)
Lemma before_no_warning (g : Globals) (residual_fct : ResidualFctPt)
  (params : Vector) (jacobian_fct : option JacobianFctPt) (ndof : nat)
  (iloop : Z) (residuals u : Vector) (jacobian : DenseDoubleMatrix)
  (lg : list event) :
  has_warning lg = false ->
  has_warning
    (lg
     ++ [ResidualCall u]
     ++ (if Doc_Progress g then [InfoIteration iloop residuals u] else [])
     ++ fd_log (build_jacobian g residual_fct params jacobian_fct ndof
                  residuals u [])
     ++ (if Doc_Progress g then [InfoJacobian jacobian] else [])
     ++ [SolveCall jacobian residuals])
  = false.
Proof.
  intros Hlg. rewrite !has_warning_app, Hlg, build_jacobian_no_warning.
  destruct (Doc_Progress g); reflexivity.
Qed.

(** The loop of the line search issues the warning on its stagnation
    exit only, and there [x] is [x_old] again. *)
Lemma backtrack_warning (fuel : nat) (x_old : Vector) (f_old : float)
  (residual_fct : ResidualFctPt) (params : Vector) (slope lmin : float)
  (l : ls_locals) (r : ls_refs) :
  length (ls_x r) = length x_old ->
  has_warning (ls_log r) = false ->
  let res :=
    backtrack fuel x_old f_old residual_fct params slope lmin l r in
  has_warning (ls_log (refs_of_result res)) = true ->
  ls_x (refs_of_result res) = x_old
  /\ exists lam r', res = LsReturned ConvergedOnXOnly lam r'.
Proof.
  revert l r. induction fuel as [|fuel IH]; intros l r Hlen Hlog; cbv zeta.
  - simpl. rewrite Hlog. discriminate.
  - rewrite backtrack_S.
    pose proof (ls_pass_cases x_old f_old residual_fct params slope lmin l r)
      as Hpass.
    cbv zeta in Hpass.
    destruct (ls_pass x_old f_old residual_fct params slope lmin l r)
      as [how r1|l1 r1].
    + destruct how.
      * destruct Hpass as (_ & ->). simpl. intros _. split.
        -- apply restore_point_all. rewrite length_trial_point. exact Hlen.
        -- eexists _, _. reflexivity.
      * destruct Hpass as (_ & _ & ->). simpl.
        rewrite has_warning_app, Hlog. discriminate.
    + destruct Hpass as (_ & _ & _ & ->). apply IH; simpl.
      * rewrite length_trial_point. exact Hlen.
      * rewrite has_warning_app, Hlog. reflexivity.
Qed.

Lemma line_search_warning (fuel : nat) (x_old : Vector) (f_old : float)
  (gradient : Vector) (residual_fct : ResidualFctPt) (params : Vector)
  (r : ls_refs) (stpmax : float) :
  length (ls_x r) = length x_old ->
  has_warning (ls_log r) = false ->
  let res :=
    line_search fuel x_old f_old gradient residual_fct params r stpmax in
  has_warning (ls_log (refs_of_result res)) = true ->
  ls_x (refs_of_result res) = x_old
  /\ exists lam r', res = LsReturned ConvergedOnXOnly lam r'.
Proof.
  intros Hlen Hlog. cbv zeta. rewrite line_search_unfold. cbv zeta.
  destruct (0 <=? _)%float.
  - simpl. rewrite Hlog. discriminate.
  - apply backtrack_warning; assumption.
Qed.

(** A pass of the driver that adds a warning to the log runs under step
    length control, goes on to the next pass, and leaves the unknowns as
    they were. *)
Lemma newton_iteration_warning (g : Globals) (fuel : nat)
  (residual_fct : ResidualFctPt) (params : Vector)
  (jacobian_fct : option JacobianFctPt) (solve : LinearSolve)
  (ndof : nat) (iloop : Z) (s : solver_state) :
  has_warning (log s) = false ->
  let res :=
    newton_iteration g fuel residual_fct params jacobian_fct solve
      ndof iloop s in
  has_warning (log (iteration_state res)) = true ->
  Use_step_length_control g = true
  /\ exists s1, res = IterNext s1 /\ unknowns s1 = unknowns s.
Proof.
  intros Hlog. cbv zeta.
  destruct (max_element AbsCmp (residual_fct params (unknowns s)))
    as [largest|] eqn:Hmax;
    [destruct (abs largest <? Tol g)%float eqn:Htol|].
  - rewrite (newton_iteration_converged g fuel residual_fct params
               jacobian_fct solve ndof iloop s largest Hmax Htol).
    simpl. rewrite !has_warning_app, Hlog.
    destruct (Doc_Progress g); discriminate.
  - pose proof (newton_iteration_failing g fuel residual_fct params
                  jacobian_fct solve ndof iloop s largest Hmax Htol) as H.
    cbv zeta in H.
    pose proof (before_no_warning g residual_fct params jacobian_fct ndof
                  iloop (residual_fct params (unknowns s)) (unknowns s)
                  (fd_jacobian
                     (build_jacobian g residual_fct params jacobian_fct ndof
                        (residual_fct params (unknowns s)) (unknowns s) []))
                  (log s) Hlog) as Hbefore.
    destruct (solve _ _) as [d|].
    + destruct (Use_step_length_control g).
      * destruct H as (ls & -> & Hfg & Hl & _).
        rewrite after_line_search_log, Hl, has_warning_app, Hbefore.
        simpl. intros Hw. split; [reflexivity|].
        match type of Hw with
        | has_warning
            (ls_log
               (refs_of_result
                  (line_search _ _ ?m ?gr _ _ ?ra ?cap))) = true =>
            destruct (line_search_warning fuel (unknowns s) m gr
                        residual_fct params ra cap eq_refl eq_refl Hw)
              as (Hx & lam & r' & Hres0);
            rewrite Hres0 in Hfg, Hx
        end.
        destruct ls as [how lam1 r1|slope1 r1|l1 r1];
          simpl in Hfg; try discriminate Hfg.
        injection Hfg as -> -> _ Hx1 _. simpl in Hx.
        eexists. split; [reflexivity|]. simpl. congruence.
      * rewrite H. cbn [iteration_state log]. rewrite Hbefore. discriminate.
    + rewrite H. cbn [iteration_state log]. rewrite Hbefore. discriminate.
  - rewrite (newton_iteration_undefined g fuel residual_fct params
               jacobian_fct solve ndof iloop s Hmax).
    cbn [iteration_state log]. rewrite has_warning_app, Hlog. discriminate.
Qed.

Lemma newton_loop_warning (g : Globals) (fuel : nat)
  (residual_fct : ResidualFctPt) (params : Vector)
  (jacobian_fct : option JacobianFctPt) (solve : LinearSolve)
  (ndof todo : nat) (iloop : Z) (s : solver_state) :
  has_warning (log s) = false ->
  let res :=
    newton_loop g fuel residual_fct params jacobian_fct solve ndof
      todo iloop s in
  has_warning (log (snd res)) = true ->
  Use_step_length_control g = true
  /\ fst res = Thrown (ConvergenceFailure (Max_iter g))
  /\ test_fails g residual_fct params (unknowns (snd res)).
Proof.
  revert iloop s. induction todo as [|todo IH]; intros iloop s Hlog;
    cbv zeta.
  - simpl. rewrite Hlog. discriminate.
  - rewrite newton_loop_S.
    pose proof (newton_iteration_warning g fuel residual_fct params
                  jacobian_fct solve ndof iloop s Hlog) as Hpass.
    cbv zeta in Hpass.
    destruct (newton_iteration g fuel residual_fct params jacobian_fct solve
                ndof iloop s) as [s1|s1|o s1] eqn:Hstep; simpl in Hpass.
    + simpl. intros Hw. destruct (Hpass Hw) as (_ & s2 & Heq & _).
      discriminate Heq.
    + destruct (has_warning (log s1)) eqn:Hw1.
      * destruct (Hpass eq_refl) as (Hctl & s2 & Heq & Hsame).
        injection Heq as <-. intros _.
        destruct (newton_loop_no_progress g fuel residual_fct params
                    jacobian_fct solve ndof todo iloop (incr_unsigned iloop)
                    s s1 Hstep Hsame) as (Hout & Hun).
        split; [exact Hctl|]. split; [exact Hout|]. rewrite Hun.
        exact (newton_iteration_next_fails _ _ _ _ _ _ _ _ _ _ Hstep).
      * apply IH. exact Hw1.
    + simpl. intros Hw. destruct (Hpass Hw) as (_ & s2 & Heq & _).
      discriminate Heq.
Qed.

(** X8.  A call during which the line search issues its warning
    (converged on x only) never returns normally: it ends with the
    convergence failure, at unknowns that fail the convergence test.  The
    pass that issued the warning left the unknowns as they were, so every
    later pass repeats it until the iteration budget is used up. *)
Theorem X8_warning_is_followed_by_failure (g : Globals) (fuel : nat)
  (residual_fct : ResidualFctPt) (params u0 : Vector)
  (jacobian_fct : option JacobianFctPt) (solve : LinearSolve) :
  let res :=
    black_box_fd_newton_solve g fuel residual_fct params u0
      jacobian_fct solve in
  has_warning (log (snd res)) = true ->
  Use_step_length_control g = true
  /\ fst res = Thrown (ConvergenceFailure (Max_iter g))
  /\ test_fails g residual_fct params (unknowns (snd res)).
Proof.
  cbv zeta. unfold black_box_fd_newton_solve.
  apply newton_loop_warning. reflexivity.
Qed.

Lemma X8_warning_is_followed_by_failure_witness :
  fst (black_box_fd_newton_solve globals_tight 3 residual_identity []
         [0x1p-60%float] None solve_1x1)
  = Thrown (ConvergenceFailure 20).
Proof.
  exact (proj1 (proj2
           (X8_warning_is_followed_by_failure globals_tight 3
              residual_identity [] [0x1p-60%float] None solve_1x1
              eq_refl))).
Defined.

(** ** The cost of a call without step length control *)

(** What a failing pass adds to the log up to its linear solve: one
    residual evaluation at the iterate, those of the finite differences,
    and the solve. *)
Lemma before_counts (g : Globals) (residual_fct : ResidualFctPt)
  (params : Vector) (jacobian_fct : option JacobianFctPt) (ndof : nat)
  (iloop : Z) (residuals u : Vector) (jacobian : DenseDoubleMatrix)
  (lg : list event) :
  let before :=
    lg
    ++ [ResidualCall u]
    ++ (if Doc_Progress g then [InfoIteration iloop residuals u] else [])
    ++ fd_log (build_jacobian g residual_fct params jacobian_fct ndof
                 residuals u [])
    ++ (if Doc_Progress g then [InfoJacobian jacobian] else [])
    ++ [SolveCall jacobian residuals] in
  count_residual_calls before
  = count_residual_calls lg + 1
    + match jacobian_fct with None => ndof | Some _ => 0 end
  /\ count_solves before = count_solves lg + 1.
Proof.
  cbv zeta.
  destruct (build_jacobian_events g residual_fct params jacobian_fct ndof
              residuals u) as (Hq & Hc).
  rewrite !count_residual_calls_app, !count_solves_app, Hc,
    (quiet_count_solves _ Hq).
  destruct (Doc_Progress g); unfold count_residual_calls, count_solves;
    simpl; lia.
Qed.

(** The residual evaluations and the linear solves of one pass. *)
Lemma newton_iteration_residual_calls (g : Globals) (fuel : nat)
  (residual_fct : ResidualFctPt) (params : Vector)
  (jacobian_fct : option JacobianFctPt) (solve : LinearSolve)
  (ndof : nat) (iloop : Z) (s : solver_state) :
  Use_step_length_control g = false ->
  let res :=
    newton_iteration g fuel residual_fct params jacobian_fct solve
      ndof iloop s in
  let s' := iteration_state res in
  let columns := match jacobian_fct with None => ndof | Some _ => 0 end in
  match iteration_kind res with
  | PassReturns | PassStops Undefined =>
      count_residual_calls (log s') = count_residual_calls (log s) + 1
      /\ count_solves (log s') = count_solves (log s)
  | PassGoesOn | PassStops (Thrown LinearSolverError) =>
      count_residual_calls (log s')
      = count_residual_calls (log s) + 1 + columns
      /\ count_solves (log s') = count_solves (log s) + 1
  | _ => False
  end.
Proof.
  intros Hctl. cbv zeta.
  destruct (max_element AbsCmp (residual_fct params (unknowns s)))
    as [largest|] eqn:Hmax;
    [destruct (abs largest <? Tol g)%float eqn:Htol|].
  - rewrite (newton_iteration_converged g fuel residual_fct params
               jacobian_fct solve ndof iloop s largest Hmax Htol).
    cbn [iteration_kind iteration_state log].
    rewrite !count_residual_calls_app, !count_solves_app.
    destruct (Doc_Progress g); unfold count_residual_calls, count_solves;
      simpl; lia.
  - pose proof (newton_iteration_failing g fuel residual_fct params
                  jacobian_fct solve ndof iloop s largest Hmax Htol) as H.
    cbv zeta in H. rewrite Hctl in H.
    pose proof (before_counts g residual_fct params jacobian_fct ndof
                  iloop (residual_fct params (unknowns s)) (unknowns s)
                  (fd_jacobian
                     (build_jacobian g residual_fct params jacobian_fct ndof
                        (residual_fct params (unknowns s)) (unknowns s) []))
                  (log s)) as Hbefore.
    cbv zeta in Hbefore.
    destruct (solve _ _) as [d|]; rewrite H;
      cbn [iteration_kind iteration_state log]; exact Hbefore.
  - rewrite (newton_iteration_undefined g fuel residual_fct params
               jacobian_fct solve ndof iloop s Hmax).
    cbn [iteration_kind iteration_state log].
    rewrite count_residual_calls_app, count_solves_app.
    unfold count_residual_calls, count_solves. simpl. lia.
Qed.

Lemma newton_loop_residual_calls (g : Globals) (fuel : nat)
  (residual_fct : ResidualFctPt) (params : Vector)
  (jacobian_fct : option JacobianFctPt) (solve : LinearSolve)
  (ndof todo : nat) (iloop : Z) (s : solver_state) :
  Use_step_length_control g = false ->
  let res :=
    newton_loop g fuel residual_fct params jacobian_fct solve ndof
      todo iloop s in
  let columns := match jacobian_fct with None => ndof | Some _ => 0 end in
  let last :=
    match fst res with Returned | Undefined => 1 | _ => 0 end in
  exists k,
    count_solves (log (snd res)) = count_solves (log s) + k
    /\ count_residual_calls (log (snd res))
       = count_residual_calls (log s) + k * (1 + columns) + last.
Proof.
  intros Hctl. revert iloop s.
  induction todo as [|todo IH]; intros iloop s; cbv zeta.
  - exists 0. simpl. split; lia.
  - rewrite newton_loop_S.
    pose proof (newton_iteration_residual_calls g fuel residual_fct params
                  jacobian_fct solve ndof iloop s Hctl) as H.
    cbv zeta in H.
    destruct (newton_iteration g fuel residual_fct params jacobian_fct solve
                ndof iloop s) as [s1|s1|o s1];
      cbn [iteration_kind iteration_state] in H.
    + exists 0. cbn [fst snd]. lia.
    + destruct (IH (incr_unsigned iloop) s1) as (k & Hs & Hr).
      exists (S k). lia.
    + destruct o as [|[| |]| |]; try contradiction; cbn [fst snd].
      * exists 1. lia.
      * exists 0. lia.
Qed.

(** ** Further guarantees of a call *)

(** X9.  Without step length control, a pass that fails the convergence
    test and whose linear solve gives [d] replaces every unknown
    [unknowns[i]] by [unknowns[i] - d[i]], computed from the value the
    unknown had at the start of the pass, whichever way the Jacobian was
    built; it increments [N_iter_taken] and goes on to the next pass. *)
Theorem X9_direct_newton_update (g : Globals) (fuel : nat)
  (residual_fct : ResidualFctPt) (params : Vector)
  (jacobian_fct : option JacobianFctPt) (solve : LinearSolve)
  (iloop : Z) (s : solver_state) (d : Vector) :
  let u := unknowns s in
  let residuals := residual_fct params u in
  let jacobian :=
    fd_jacobian
      (build_jacobian g residual_fct params jacobian_fct (length u)
         residuals u []) in
  Use_step_length_control g = false ->
  test_fails g residual_fct params u ->
  solve jacobian residuals = Some d ->
  exists s1,
    newton_iteration g fuel residual_fct params jacobian_fct solve
      (length u) iloop s
    = IterNext s1
    /\ length (unknowns s1) = length u
    /\ (forall i, i < length u ->
          vget (unknowns s1) i = (vget u i - vget d i)%float)
    /\ N_iter_taken s1 = incr_unsigned (N_iter_taken s).
Proof.
  intros u residuals jacobian Hctl (m & Hm & Htol) Hsolve.
  unfold max_res in Hm.
  destruct (max_element AbsCmp (residual_fct params u)) as [largest|] eqn:Hmax;
    [|discriminate Hm].
  simpl in Hm. injection Hm as <-.
  pose proof (newton_iteration_failing g fuel residual_fct params
                jacobian_fct solve (length u) iloop s largest Hmax Htol) as H.
  cbv zeta in H. fold u in H. fold residuals in H. fold jacobian in H.
  rewrite Hsolve, Hctl in H.
  eexists. split; [exact H|]. cbn [unknowns N_iter_taken].
  split; [|split; [|reflexivity]].
  - apply (length_pointwise_loop (length u)
             (fun k a => (a - vget d k)%float)).
  - intros i Hi.
    apply (vget_pointwise_loop (length u)
             (fun k a => (a - vget d k)%float)); exact Hi.
Qed.

Lemma X9_direct_newton_update_witness :
  exists s1,
    newton_iteration default_globals 3 residual_identity []
      (Some jacobian_one) solve_1x1
      1 0 {| unknowns := [5%float]; N_iter_taken := 0; log := [] |}
    = IterNext s1
    /\ length (unknowns s1) = 1
    /\ (forall i, i < 1 ->
          vget (unknowns s1) i
          = (vget [5%float] i - vget [5%float] i)%float)
    /\ N_iter_taken s1 = 1%Z.
Proof.
  assert (Hfails : test_fails default_globals residual_identity []
                     [5%float]).
  { exists 5%float. split; reflexivity. }
  exact (X9_direct_newton_update default_globals 3 residual_identity []
           (Some jacobian_one) solve_1x1 0
           {| unknowns := [5%float]; N_iter_taken := 0; log := [] |}
           [5%float] eq_refl Hfails eq_refl).
Defined.

(** X12.  Called on an empty unknowns vector with a positive [Max_iter],
    the driver evaluates the residual once and then takes the largest
    element of an empty range (line 110), which has no value: the call
    has no defined outcome, and this happens before the convergence
    test, the Jacobian and the solve. *)
Theorem X12_empty_unknowns (g : Globals) (fuel : nat)
  (residual_fct : ResidualFctPt) (params : Vector)
  (jacobian_fct : option JacobianFctPt) (solve : LinearSolve) :
  (0 < Max_iter g)%Z ->
  residual_fct params [] = [] ->
  black_box_fd_newton_solve g fuel residual_fct params [] jacobian_fct solve
  = (Undefined,
     {| unknowns := []; N_iter_taken := 0; log := [ResidualCall []] |}).
Proof.
  intros Hmax Hres. unfold black_box_fd_newton_solve.
  destruct (Z.to_nat (Max_iter g)) as [|todo] eqn:Htodo; [lia|].
  rewrite newton_loop_S.
  rewrite newton_iteration_undefined; [reflexivity|].
  cbn [unknowns]. rewrite Hres. reflexivity.
Qed.

Lemma X12_empty_unknowns_witness :
  black_box_fd_newton_solve default_globals 3 residual_identity [] []
    (Some jacobian_one) solve_1x1
  = (Undefined,
     {| unknowns := []; N_iter_taken := 0; log := [ResidualCall []] |}).
Proof.
  exact (X12_empty_unknowns default_globals 3 residual_identity []
           (Some jacobian_one) solve_1x1 eq_refl eq_refl).
Defined.

(** X13.  Without step length control, the number of residual
    evaluations of a call is fixed by its number of linear solves: each
    pass that reaches the solve costs one evaluation at the iterate and,
    when the Jacobian is built by finite differences, one per unknown;
    a call that returns makes one more, for the test that succeeded. *)
Theorem X13_residual_evaluations (g : Globals) (fuel : nat)
  (residual_fct : ResidualFctPt) (params u0 : Vector)
  (jacobian_fct : option JacobianFctPt) (solve : LinearSolve) :
  Use_step_length_control g = false ->
  let res :=
    black_box_fd_newton_solve g fuel residual_fct params u0
      jacobian_fct solve in
  let columns :=
    match jacobian_fct with None => length u0 | Some _ => 0 end in
  let last :=
    match fst res with Returned | Undefined => 1 | _ => 0 end in
  count_residual_calls (log (snd res))
  = count_solves (log (snd res)) * (1 + columns) + last.
Proof.
  intros Hctl. cbv zeta.
  destruct (newton_loop_residual_calls g fuel residual_fct params
              jacobian_fct solve (length u0) (Z.to_nat (Max_iter g)) 0
              {| unknowns := u0; N_iter_taken := 0; log := [] |} Hctl)
    as (k & Hs & Hr).
  unfold black_box_fd_newton_solve. rewrite Hr, Hs. reflexivity.
Qed.

Lemma X13_residual_evaluations_witness :
  count_residual_calls
    (log (snd (black_box_fd_newton_solve default_globals 3
                 residual_identity [] [5%float] None solve_1x1)))
  = 5.
Proof.
  exact (X13_residual_evaluations default_globals 3 residual_identity []
           [5%float] None solve_1x1 eq_refl).
Defined.

Lemma info_without_info (info : list event) :
  forallb is_info info = true -> without_info info = [].
Proof.
  induction info as [|e info IH]; [reflexivity|]. simpl.
  intros H. apply andb_prop in H as [He Hinfo]. rewrite He. simpl.
  apply IH. exact Hinfo.
Qed.

(** X14.  When the driver returns, the last call it has made is a
    residual evaluation at exactly the unknowns it returns: apart from
    text for [oomph_info], nothing follows that evaluation in the log. *)
Theorem X14_last_evaluation_at_returned_unknowns (g : Globals) (fuel : nat)
  (residual_fct : ResidualFctPt) (params u0 : Vector)
  (jacobian_fct : option JacobianFctPt) (solve : LinearSolve) :
  let res :=
    black_box_fd_newton_solve g fuel residual_fct params u0
      jacobian_fct solve in
  fst res = Returned ->
  exists earlier,
    without_info (log (snd res))
    = earlier ++ [ResidualCall (unknowns (snd res))].
Proof.
  intros res Hret.
  destruct (newton_loop_returned g fuel residual_fct params jacobian_fct
              solve (length u0) (Z.to_nat (Max_iter g)) 0
              {| unknowns := u0; N_iter_taken := 0; log := [] |} Hret)
    as (largest & lg & info & _ & _ & Hlog & Hinfo).
  exists (without_info lg).
  transitivity
    (without_info (lg ++ [ResidualCall (unknowns (snd res))] ++ info)).
  - f_equal. exact Hlog.
  - rewrite !without_info_app, (info_without_info _ Hinfo), app_nil_r.
    reflexivity.
Qed.

Lemma X14_last_evaluation_at_returned_unknowns_witness :
  exists earlier,
    without_info
      (log (snd (black_box_fd_newton_solve globals_documented 3
                   residual_identity [] [5%float] (Some jacobian_one)
                   solve_1x1)))
    = earlier ++ [ResidualCall [0%float]].
Proof.
  exact (X14_last_evaluation_at_returned_unknowns globals_documented 3
           residual_identity [] [5%float] (Some jacobian_one) solve_1x1
           eq_refl).
Defined.
